(** * Typed cache facade of github.com/sinu5oid/cache: in-memory backend

    A shallow embedding of package [cache] (errors.go, asmap.go, the
    [StorageItemMulti] type; module [cache] below) and of package [inmem]
    ([Cache], [get], [set], [delete], [GetOrFetch], [GetMulti], ...).
    Package [lru] repeats the facade of [inmem] statement by statement over
    an [*lru.ARCCache] ([Get]/[Add]/[Remove] in place of
    [Load]/[Store]/[Delete]); its ARC store is an external library, so the
    development below is carried out on the [sync.Map] store of [inmem].

    Conventions of the embedding:
    - a [*sync.Map] keyed by strings is a [gmap string _];
    - [time.Time] and [time.Duration] are integers (nanoseconds), [Add] is
      addition and [After] is [>] on them;
    - [time.Now()] reads an arbitrary clock [clock : nat -> Z] at the current
      tick and advances the tick;
    - channels live in a heap [chans]; an unbuffered channel is described by
      its closed flag;
    - Go statements run in a state monad [M] whose outcomes are a normal
      return, a panic, or a goroutine that is blocked forever;
    - calls to the fetcher and operations on the wait registry ([rwQueue])
      are recorded in [trace].

    Of package [redis], whose store is an external client too, the store
    keys the methods pass on are modelled (module [redis] below). *)

From Stdlib Require Import ZArith Lia.
From stdpp Require Import base option list gmap strings.

Local Open Scope string_scope.
Local Open Scope Z_scope.
Local Open Scope list_scope.

(** ** The error interface

    The dynamic types an [error] has in this code: the two error structs of
    package [cache] (errors.go), plain messages, and wrappers made with
    [%w]. *)

#[warnings="-register-all"]
Inductive error : Type :=
| MissingEntryError (key : string)
| FailedToCastEntryError (key : string) (err : option error)
| errorString (s : string)                    (* errors.New(s) *)
| wrapError (msg : string) (err : error).     (* fmt.Errorf("...: %w", err) *)

(** [errors.As(err, &missingEntryError)] with
    [var missingEntryError cache.MissingEntryError]: walks the [Unwrap]
    chain of [err] and reports whether some error in it has dynamic type
    [MissingEntryError].  [FailedToCastEntryError] declares no [Unwrap]
    method, so its [err] field is not visited. *)
Fixpoint errors_As_MissingEntryError (err : error) : bool :=
  match err with
  | MissingEntryError _ => true
  | FailedToCastEntryError _ _ => false
  | errorString _ => false
  | wrapError _ inner => errors_As_MissingEntryError inner
  end.

(** The zero value [*new(T)] of the element type. *)
Class GoZero (T : Type) := zero_value : T.

#[export] Instance Z_GoZero : GoZero Z := 0.
#[export] Instance string_GoZero : GoZero string := EmptyString.

(** ** Package cache *)

Module cache.

Definition NewMissingEntryError (key : string) : error :=
  MissingEntryError key.

Definition NewFailedToCastEntryError (key : string) (err : option error) : error :=
  FailedToCastEntryError key err.

Record StorageItemMulti (T : Type) := mkStorageItemMulti {
  Key : string;
  Value : T
}.
Arguments mkStorageItemMulti {T} _ _.
Arguments Key {T} _.
Arguments Value {T} _.

(** [m := make(map[string]T, len(xs)); for _, v := range xs { m[v.Key] = v.Value }] *)
Definition AsMap {T : Type} (xs : list (StorageItemMulti T)) : gmap string T :=
  fold_left (fun m v => <[Key v := Value v]> m) xs ∅.

End cache.

(** ** Package inmem *)

Definition chanref := nat.

Inductive event : Type :=
| EvLoadOrStore (key : string)     (* c.rwQueue.LoadOrStore(key, _) *)
| EvQueueDelete (key : string)     (* c.rwQueue.Delete(key) *)
| EvQueueClear                     (* c.rwQueue.Clear() *)
| EvFetcher.                       (* fetcher() *)

#[export] Instance event_eq_dec : EqDecision event.
Proof. solve_decision. Defined.

Inductive outcome (A : Type) : Type :=
| Ret (a : A)
| Panic (msg : string)
| Blocked.
Arguments Ret {A} _.
Arguments Panic {A} _.
Arguments Blocked {A}.

Section Inmem.
Context {T : Type} `{!GoZero T}.

(** [type withTTL[T any] struct { UpdatedAt time.Time; TTL *time.Duration; Value T }] *)
Record withTTL := mkWithTTL {
  UpdatedAt : Z;
  TTL : option Z;
  Value : T
}.

(** A value of type [any] held by [storage]: either a [withTTL[T]] or a value
    of some other dynamic type. *)
Inductive any : Type :=
| AnyWithTTL (e : withTTL)
| AnyOther (dyn : string).

(** A value of type [any] held by [rwQueue]: either a
    [chan getOrFetchResult[T]] or a value of some other dynamic type. *)
Inductive anyq : Type :=
| AnyChan (c : chanref)
| AnyqOther (dyn : string).

(** [type Cache[T any] struct { storage, rwQueue *sync.Map;
    defaultTTL *time.Duration }] *)
Record Cache := mkCache {
  storage : gmap string any;
  rwQueue : gmap string anyq;
  defaultTTL : option Z
}.

Record world := mkWorld {
  cache : Cache;
  chans : list bool;      (* closed flag of every channel made so far *)
  clock : nat -> Z;       (* the instants time.Now() will report *)
  ticks : nat;            (* number of time.Now() calls so far *)
  trace : list event      (* oldest event first *)
}.

Definition with_storage (f : gmap string any -> gmap string any) (w : world) : world :=
  mkWorld (mkCache (f (storage (cache w))) (rwQueue (cache w)) (defaultTTL (cache w)))
          (chans w) (clock w) (ticks w) (trace w).

Definition with_rwQueue (f : gmap string anyq -> gmap string anyq) (w : world) : world :=
  mkWorld (mkCache (storage (cache w)) (f (rwQueue (cache w))) (defaultTTL (cache w)))
          (chans w) (clock w) (ticks w) (trace w).

Definition with_defaultTTL (d : option Z) (w : world) : world :=
  mkWorld (mkCache (storage (cache w)) (rwQueue (cache w)) d)
          (chans w) (clock w) (ticks w) (trace w).

Definition with_chans (f : list bool -> list bool) (w : world) : world :=
  mkWorld (cache w) (f (chans w)) (clock w) (ticks w) (trace w).

Definition with_tick (w : world) : world :=
  mkWorld (cache w) (chans w) (clock w) (S (ticks w)) (trace w).

Definition log (e : event) (w : world) : world :=
  mkWorld (cache w) (chans w) (clock w) (ticks w) (trace w ++ [e]).

(** *** The monad of Go statements *)

Definition M (A : Type) : Type := world -> outcome A * world.

Definition ret {A} (a : A) : M A := fun w => (Ret a, w).

Definition bind {A B} (m : M A) (k : A -> M B) : M B :=
  fun w =>
    match m w with
    | (Ret a, w') => k a w'
    | (Panic msg, w') => (Panic msg, w')
    | (Blocked, w') => (Blocked, w')
    end.

#[export] Instance M_ret : MRet M := @ret.
#[export] Instance M_bind : MBind M := fun A B k m => bind m k.

(** *** Primitives: time, sync.Map, channels, the fetcher *)

Definition time_Now : M Z :=
  fun w => (Ret (clock w (ticks w)), with_tick w).

Definition Add (t d : Z) : Z := t + d.
Definition After (t u : Z) : bool := bool_decide (t > u).

Definition storage_Load (key : string) : M (option any) :=
  fun w => (Ret (storage (cache w) !! key), w).

Definition storage_Store (key : string) (v : any) : M unit :=
  fun w => (Ret tt, with_storage (insert key v) w).

Definition storage_Delete (key : string) : M unit :=
  fun w => (Ret tt, with_storage (delete key) w).

Definition storage_Clear : M unit :=
  fun w => (Ret tt, with_storage (fun _ => ∅) w).

(** [actual, loaded := m.LoadOrStore(key, value)] *)
Definition rwQueue_LoadOrStore (key : string) (value : anyq) : M (anyq * bool) :=
  fun w =>
    match rwQueue (cache w) !! key with
    | Some actual => (Ret (actual, true), log (EvLoadOrStore key) w)
    | None => (Ret (value, false),
               log (EvLoadOrStore key) (with_rwQueue (insert key value) w))
    end.

Definition rwQueue_Delete (key : string) : M unit :=
  fun w => (Ret tt, log (EvQueueDelete key) (with_rwQueue (delete key) w)).

Definition rwQueue_Clear : M unit :=
  fun w => (Ret tt, log EvQueueClear (with_rwQueue (fun _ => ∅) w)).

(** [make(chan getOrFetchResult[T])]: a fresh open unbuffered channel. *)
Definition make_chan : M chanref :=
  fun w => (Ret (length (chans w)), with_chans (fun cs => cs ++ [false]) w).

(** [close(c)] *)
Definition chan_close (c : chanref) : M unit :=
  fun w =>
    match chans w !! c with
    | Some false => (Ret tt, with_chans (<[c := true]>) w)
    | Some true => (Panic "close of closed channel", w)
    | None => (Panic "close of nil channel", w)
    end.

(** [<-c] with no sender ready: a closed channel yields the zero value of
    [getOrFetchResult[T]] at once, an open (or nil) one blocks. *)
Definition chan_recv (c : chanref) : M (T * option error) :=
  fun w =>
    match chans w !! c with
    | Some true => (Ret (zero_value, None), w)
    | _ => (Blocked, w)
    end.

(** [c <- v] with no receiver ready: panics on a closed channel, blocks on an
    open (or nil) one. *)
Definition chan_send (c : chanref) (v : T * option error) : M unit :=
  fun w =>
    match chans w !! c with
    | Some true => (Panic "send on closed channel", w)
    | _ => (Blocked, w)
    end.

(** [fetcher()]: the fetcher is described by the pair it returns. *)
Definition call (fetcher : unit -> T * option error) : M (T * option error) :=
  fun w => (Ret (fetcher tt), log EvFetcher w).

(** *** NewCache, NewCacheWithTTL, WithTTL, Clear *)

Definition NewCache : Cache := mkCache ∅ ∅ None.

Definition WithTTL (ttl : Z) : M unit :=
  fun w => (Ret tt, with_defaultTTL (Some ttl) w).

Definition NewCacheWithTTL (defaultTTL : Z) : Cache := mkCache ∅ ∅ (Some defaultTTL).

Definition Clear : M unit :=
  storage_Clear ;; rwQueue_Clear.

(** *** get, set, delete

    [delete] and [Set] are spelled [delete_] and [Set_] here: the plain names
    are taken by the map library and by the language. *)

Definition delete_ (key : string) : M unit :=
  storage_Delete key.

Definition get (key : string) : M (T * option error) :=
  value ← storage_Load key;
  match value with
  | None => mret (zero_value, Some (cache.NewMissingEntryError key))
  | Some (AnyOther _) =>                       (* casted, ok := value.(withTTL[T]); !ok *)
      delete_ key ;;
      mret (zero_value, Some (cache.NewFailedToCastEntryError key None))
  | Some (AnyWithTTL casted) =>
      match TTL casted with
      | None => mret (Value casted, None)
      | Some ttl =>
          now ← time_Now;
          if After (Add (UpdatedAt casted) ttl) now
          then mret (Value casted, None)
          else delete_ key ;;
               mret (zero_value, Some (cache.NewMissingEntryError key))
      end
  end.

Definition set (key : string) (value : T) (ttl : option Z) : M unit :=
  fun w =>
    let finalTTL := match ttl with Some _ => ttl | None => defaultTTL (cache w) end in
    (now ← time_Now;
     storage_Store key (AnyWithTTL (mkWithTTL now finalTTL value))) w.

(** *** The exported methods *)

Definition Get (key : string) : M (T * option error) :=
  get key.

Definition Set_ (key : string) (value : T) : M (option error) :=
  set key value None ;; mret None.

Definition SetWithTTL (key : string) (value : T) (ttl : Z) : M (option error) :=
  set key value (Some ttl) ;; mret None.

Definition Delete (key : string) : M (option error) :=
  delete_ key ;; mret None.

(** [GetOrFetch].  The deferred [c.rwQueue.Delete(key)] is registered by the
    statement that follows the send, directly before the final [return]; it
    therefore runs exactly when control gets past the send, after the
    returned pair has been evaluated. *)
Definition GetOrFetch (key : string) (fetcher : unit -> T * option error)
  : M (T * option error) :=
  done ← make_chan;
  chan_close done ;;
  '(lock, loaded) ← rwQueue_LoadOrStore key (AnyChan done);
  match loaded, lock with
  | true, AnyChan c =>                         (* c, ok := lock.(chan ...); ok *)
      res ← chan_recv c;
      mret res
  | _, _ =>
      '(result, err) ← get key;
      match err with
      | None => mret (result, err)
      | Some e =>
          if negb (errors_As_MissingEntryError e)
          then mret (result, err)
          else
            '(result, err) ← call fetcher;
            chan_send done (result, err) ;;
            rwQueue_Delete key ;;                (* the deferred call *)
            mret (result, err)
      end
  end.

(** The body of the loop of [GetMulti], with [res] the slice built so far. *)
Fixpoint GetMulti_loop (keys : list string) (res : list (cache.StorageItemMulti T))
  : M (list (cache.StorageItemMulti T)) :=
  match keys with
  | [] => mret res
  | key :: keys =>
      '(val, err) ← get key;
      match err with
      | Some _ => GetMulti_loop keys res                           (* continue *)
      | None => GetMulti_loop keys (res ++ [cache.mkStorageItemMulti key val])
      end
  end.

Definition GetMulti (keys : list string)
  : M (list (cache.StorageItemMulti T) * option error) :=
  res ← GetMulti_loop keys [];
  mret (res, None).

Fixpoint SetMulti_loop (kvs : list (cache.StorageItemMulti T)) (ttl : option Z)
  : M unit :=
  match kvs with
  | [] => mret tt
  | kv :: kvs => set (cache.Key kv) (cache.Value kv) ttl ;; SetMulti_loop kvs ttl
  end.

Definition SetMulti (kvs : list (cache.StorageItemMulti T)) : M (option error) :=
  SetMulti_loop kvs None ;; mret None.

Definition SetMultiWithTTL (kvs : list (cache.StorageItemMulti T)) (ttl : Z)
  : M (option error) :=
  SetMulti_loop kvs (Some ttl) ;; mret None.

(** *** GetOrFetch, one shared-memory action at a time

    For callers that run concurrently, [GetOrFetch] is cut at its accesses
    to shared state.  A goroutine is at one of the following points; [step]
    performs the statements up to the next point.  The channel [done] is
    local to the goroutine until [LoadOrStore] publishes it, so making,
    closing and publishing it form one step. *)
Inductive pc : Type :=
| AtEntry                                         (* before LoadOrStore *)
| AtRecv (c : chanref)                            (* res := <-c *)
| AtGet (done : chanref)                          (* result, err := c.get(key) *)
| AtFetch (done : chanref)                        (* result, err = fetcher() *)
| AtSend (done : chanref) (r : T * option error)  (* done <- ... *)
| AtDeferred (r : T * option error)               (* return; the deferred Delete *)
| Returned (r : T * option error)
| Panicked (msg : string).

Definition step (key : string) (fetcher : unit -> T * option error) (p : pc) : M pc :=
  match p with
  | AtEntry =>
      done ← make_chan;
      chan_close done ;;
      '(lock, loaded) ← rwQueue_LoadOrStore key (AnyChan done);
      match loaded, lock with
      | true, AnyChan c => mret (AtRecv c)
      | _, _ => mret (AtGet done)
      end
  | AtRecv c =>
      res ← chan_recv c;
      mret (Returned res)
  | AtGet done =>
      '(result, err) ← get key;
      match err with
      | None => mret (Returned (result, err))
      | Some e =>
          if negb (errors_As_MissingEntryError e)
          then mret (Returned (result, err))
          else mret (AtFetch done)
      end
  | AtFetch done =>
      r ← call fetcher;
      mret (AtSend done r)
  | AtSend done r =>
      chan_send done r ;;
      mret (AtDeferred r)
  | AtDeferred r =>
      rwQueue_Delete key ;;
      mret (Returned r)
  | Returned r => mret (Returned r)
  | Panicked msg => mret (Panicked msg)
  end.

(** One goroutine inside [GetOrFetch key fetcher]. *)
Record goroutine := mkGoroutine {
  g_key : string;
  g_fetcher : unit -> T * option error;
  g_pc : pc
}.

(** Goroutine [g] takes its next step.  A panic stops it; a blocked
    goroutine stays where it is. *)
Definition step_goroutine (g : goroutine) (w : world) : goroutine * world :=
  match step (g_key g) (g_fetcher g) (g_pc g) w with
  | (Ret p, w') => (mkGoroutine (g_key g) (g_fetcher g) p, w')
  | (Panic msg, w') => (mkGoroutine (g_key g) (g_fetcher g) (Panicked msg), w')
  | (Blocked, _) => (g, w)
  end.

(** The scheduler picks goroutine [i] of the pool. *)
Definition sched_step (i : nat) (st : list goroutine * world) : list goroutine * world :=
  match fst st !! i with
  | Some g =>
      let '(g', w') := step_goroutine g (snd st) in
      (<[i := g']> (fst st), w')
  | None => st
  end.

Definition run_schedule (schedule : list nat) (st : list goroutine * world)
  : list goroutine * world :=
  fold_left (fun st i => sched_step i st) schedule st.

(** [n] callers entering [GetOrFetch key fetcher]. *)
Definition callers (n : nat) (key : string) (fetcher : unit -> T * option error)
  : list goroutine :=
  replicate n (mkGoroutine key fetcher AtEntry).

(** A single goroutine run on its own for at most [fuel] steps. *)
Fixpoint run_alone (fuel : nat) (g : goroutine) (w : world) : goroutine * world :=
  match fuel with
  | O => (g, w)
  | S fuel => let '(g', w') := step_goroutine g w in run_alone fuel g' w'
  end.

(** The outcome of a call as read off a goroutine. *)
Definition outcome_of_pc (p : pc) : outcome (T * option error) :=
  match p with
  | Returned r => Ret r
  | Panicked msg => Panic msg
  | _ => Blocked
  end.

(** *** Observations *)

(** Number of fetcher invocations recorded in a trace. *)
Definition fetcher_calls (tr : list event) : nat :=
  length (filter (fun e => e = EvFetcher) tr).

(** The wait-registry operations recorded in a trace. *)
Definition registry_ops (tr : list event) : list event :=
  filter (fun e => e <> EvFetcher) tr.

(** The events a run from [w] to [w'] has appended. *)
Definition events_since (w w' : world) : list event :=
  drop (length (trace w)) (trace w').

(** [storage] holds for [key] an entry of the right type that has not
    expired at instant [now]. *)
Definition live_at (now : Z) (e : withTTL) : bool :=
  match TTL e with
  | None => true
  | Some ttl => bool_decide (now < UpdatedAt e + ttl)
  end.

End Inmem.

Arguments withTTL : clear implicits.
Arguments any : clear implicits.
Arguments anyq : clear implicits.
Arguments Cache : clear implicits.
Arguments world : clear implicits.
Arguments pc : clear implicits.
Arguments goroutine : clear implicits.

(** The world right after the first three statements of [GetOrFetch]:
    [done] has been made and closed, and [LoadOrStore] has put it under
    [key] unless the registry already held a value there. *)
Definition after_claim {T} (key : string) (w : world T) : world T :=
  log (EvLoadOrStore key)
    (with_rwQueue
       (fun q => match q !! key with
                 | Some _ => q
                 | None => <[key := AnyChan (length (chans w))]> q
                 end)
       (with_chans (fun cs => cs ++ [true]) w)).

(** The registry holds a completion signal for [key]: a caller of
    [GetOrFetch] would join it instead of looking at the store. *)
Definition in_flight {T} (w : world T) (key : string) : Prop :=
  exists c, rwQueue (cache w) !! key = Some (AnyChan c).

(** The claim that a live key is served without touching the fetcher or the
    registry, as the specification words it. *)
Definition served_without_registry {T} `{!GoZero T} (w : world T) (key : string)
    (fetcher : unit -> T * option error) : Prop :=
  forall e,
    storage (cache w) !! key = Some (AnyWithTTL e) ->
    live_at (clock w (ticks w)) e = true ->
    let r := GetOrFetch key fetcher w in
    fst r = Ret (Value e, None) /\
    fetcher_calls (events_since w (snd r)) = 0%nat /\
    registry_ops (events_since w (snd r)) = [].

(** What a call of [get] can do: it always returns, the error is nil,
    [MissingEntryError key] or [FailedToCastEntryError key nil], and only
    [storage] and the clock are touched. *)
Inductive get_result {T} `{!GoZero T} (key : string) (w : world T)
  : outcome (T * option error) * world T -> Prop :=
| get_hit v w' :
    storage (cache w') = storage (cache w) ->
    get_result key w (Ret (v, None), w')
| get_miss w' :
    storage (cache w') = delete key (storage (cache w)) ->
    get_result key w (Ret (zero_value, Some (MissingEntryError key)), w')
| get_cast w' :
    storage (cache w') = delete key (storage (cache w)) ->
    get_result key w (Ret (zero_value, Some (FailedToCastEntryError key None)), w').

(** What [get] answers for each requested key in turn, every call made in
    the world its predecessors have left. *)
Fixpoint get_each {T} `{!GoZero T} (keys : list string) (w : world T)
  : list (string * (T * option error)) :=
  match keys with
  | [] => []
  | key :: keys =>
      match get key w with
      | (Ret r, w') => (key, r) :: get_each keys w'
      | (_, _) => []
      end
  end.

(** The item a successful [get] contributes to the result of [GetMulti]; a
    failed one contributes nothing. *)
Definition found_item {T} (kr : string * (T * option error))
  : option (cache.StorageItemMulti T) :=
  match kr with
  | (key, (val, None)) => Some (cache.mkStorageItemMulti key val)
  | (_, (_, Some _)) => None
  end.

(** Where a goroutine can be while no caller has got hold of a fetched
    pair: the channel it is about to use is closed, it has not got past its
    send, and if it has returned it has returned the zero value and a nil
    error. *)
Definition pc_settled {T} `{!GoZero T} (w : world T) (p : pc T) : Prop :=
  match p with
  | AtEntry | Panicked _ => True
  | AtRecv c | AtGet c | AtFetch c | AtSend c _ => chans w !! c = Some true
  | AtDeferred _ => False
  | Returned r => r = (zero_value, None)
  end.

(** The invariant of a pool of callers of [GetOrFetch] on one absent [key]. *)
Definition pool_inv {T} `{!GoZero T} (key : string)
    (st : list (goroutine T) * world T) : Prop :=
  storage (cache (snd st)) !! key = None /\
  (forall v, rwQueue (cache (snd st)) !! key = Some v ->
     exists c, v = AnyChan c /\ chans (snd st) !! c = Some true) /\
  Forall (fun g => g_key g = key /\ pc_settled (snd st) (g_pc g)) (fst st).

(** A goroutine that has claimed the key and has not called the fetcher yet. *)
Definition is_pending {T} (p : pc T) : bool :=
  match p with
  | AtGet _ | AtFetch _ => true
  | _ => false
  end.

Definition pending {T} (gs : list (goroutine T)) : nat :=
  length (filter (fun g => is_pending (g_pc g)) gs).

(** 1 once the registry holds something under [key], 0 before. *)
Definition registered {T} (w : world T) (key : string) : nat :=
  match rwQueue (cache w) !! key with
  | Some _ => 1
  | None => 0
  end.

(** ** More of package inmem: Keys, and clients of the exported methods *)

(** [Keys]: [Range] visits the entries of [storage] in an order it does not
    specify and the loop appends every key it is shown.  The model visits
    them in the order of [map_to_list]; the facts proved about [Keys] do not
    depend on that order. *)
Definition Keys {T} (w : world T) : outcome (list string * option error) * world T :=
  (Ret (fold_left (fun keys kv => keys ++ [kv.1])
          (map_to_list (storage (cache w))) [], None), w).

(** The world of a cache just built by [NewCache], under a given clock. *)
Definition new_world {T} (clock : nat -> Z) : world T :=
  mkWorld NewCache [] clock 0 [].

(** One call of an exported method. *)
Inductive method_call (T : Type) : Type :=
| CallGet (key : string)
| CallSet (key : string) (value : T)
| CallSetWithTTL (key : string) (value : T) (ttl : Z)
| CallDelete (key : string)
| CallGetMulti (keys : list string)
| CallSetMulti (kvs : list (cache.StorageItemMulti T))
| CallSetMultiWithTTL (kvs : list (cache.StorageItemMulti T)) (ttl : Z)
| CallGetOrFetch (key : string) (fetcher : unit -> T * option error)
| CallKeys
| CallClear
| CallWithTTL (ttl : Z).
Arguments CallGet {T} _.
Arguments CallSet {T} _ _.
Arguments CallSetWithTTL {T} _ _ _.
Arguments CallDelete {T} _.
Arguments CallGetMulti {T} _.
Arguments CallSetMulti {T} _.
Arguments CallSetMultiWithTTL {T} _ _.
Arguments CallGetOrFetch {T} _ _.
Arguments CallKeys {T}.
Arguments CallClear {T}.
Arguments CallWithTTL {T} _.

(** The world a call leaves.  A panic of [GetOrFetch] is taken as recovered
    by the client: the run goes on in the world the panic has left. *)
Definition run_call {T} `{!GoZero T} (c : method_call T) (w : world T) : world T :=
  match c with
  | CallGet key => snd (Get key w)
  | CallSet key value => snd (Set_ key value w)
  | CallSetWithTTL key value ttl => snd (SetWithTTL key value ttl w)
  | CallDelete key => snd (Delete key w)
  | CallGetMulti keys => snd (GetMulti keys w)
  | CallSetMulti kvs => snd (SetMulti kvs w)
  | CallSetMultiWithTTL kvs ttl => snd (SetMultiWithTTL kvs ttl w)
  | CallGetOrFetch key fetcher => snd (GetOrFetch key fetcher w)
  | CallKeys => snd (Keys w)
  | CallClear => snd (Clear w)
  | CallWithTTL ttl => snd (WithTTL ttl w)
  end.

(** A client: a sequence of calls, run one after the other. *)
Definition run_calls {T} `{!GoZero T} (calls : list (method_call T)) (w : world T) : world T :=
  fold_left (fun w c => run_call c w) calls w.

Definition is_Clear {T} (c : method_call T) : bool :=
  match c with
  | CallClear => true
  | _ => false
  end.

(** What every world a client can reach satisfies: the store holds
    [withTTL] entries only, the registry holds channels only, and every
    channel in the registry is closed. *)
Definition well_formed {T} (w : world T) : Prop :=
  (forall k v, storage (cache w) !! k = Some v -> exists e, v = AnyWithTTL e) /\
  (forall k v, rwQueue (cache w) !! k = Some v ->
     exists c, v = AnyChan c /\ chans w !! c = Some true).

(** How many steps of its own a caller of [GetOrFetch] has left at most. *)
Definition steps_left {T} (p : pc T) : nat :=
  match p with
  | AtEntry => 4
  | AtGet _ => 3
  | AtFetch _ => 2
  | AtRecv _ | AtSend _ _ | AtDeferred _ => 1
  | Returned _ | Panicked _ => 0
  end.

(** The invariant of a pool of callers of [GetOrFetch], with any keys and
    fetchers: the world is well formed, the channel a caller is about to use
    is closed, and no caller is past its send. *)
Definition pc_closed {T} (w : world T) (p : pc T) : Prop :=
  match p with
  | AtRecv c | AtGet c | AtFetch c | AtSend c _ => chans w !! c = Some true
  | AtDeferred _ => False
  | AtEntry | Returned _ | Panicked _ => True
  end.

Definition pool_closed {T} (st : list (goroutine T) * world T) : Prop :=
  well_formed (snd st) /\
  Forall (fun g => pc_closed (snd st) (g_pc g)) (fst st).

(** ** Package redis: the keys handed to the store

    [*rc.Cache] is an external client; of package [redis] the part that does
    not depend on it is modelled: which store key each method passes on. *)

Module redis.

(** [fmt.Sprintf("%s:%s", c.baseKey, key)] *)
Definition formatKey (baseKey key : string) : string :=
  String.append baseKey (String.append ":" key).

(** The field [Key] of the [rc.Item] that [get] hands to [storage.Once]. *)
Definition get_item_Key (baseKey key : string) : string :=
  formatKey baseKey key.

(** The field [Key] of the [rc.Item] that [set] hands to [storage.Set]. *)
Definition set_item_Key (baseKey key : string) : string :=
  formatKey baseKey key.

(** The key that [delete] hands to [storage.Delete]: [key] as it is. *)
Definition delete_key (baseKey key : string) : string :=
  key.

End redis.

(** ** Example data *)

Module Examples.

(** A clock that reports the instants 0, 60, 120, ... *)
Definition clock60 : nat -> Z := fun n => 60 * Z.of_nat n.

(** A cache just built by [NewCache[int]()]. *)
Definition fresh : world Z := mkWorld NewCache [] clock60 0 [].

Definition fetch42 : unit -> Z * option error := fun _ => (42, None).

(** After [SetWithTTL(ctx, "user:1", 7, 100)] at instant 0. *)
Definition cached : world Z := snd (SetWithTTL "user:1" 7 100 fresh).

(** The same cache one clock reading later. *)
Definition cached_later : world Z := with_tick cached.

(** A store in which ["user:1"] holds a value of a foreign type. *)
Definition corrupt : world Z :=
  with_storage (insert "user:1" (AnyOther "string")) fresh.

(** After [Set(ctx, "user:1", 7)] on a cache with no default TTL. *)
Definition pinned : world Z := snd (Set_ "user:1" 7 fresh).

(** The same cache after one [GetOrFetch(ctx, "user:1", fetch42)]. *)
Definition pinned_claimed : world Z :=
  snd (GetOrFetch "user:1" fetch42 pinned).

(** After ["a"] and ["c"] have been set, with no TTL. *)
Definition two_of_three : world Z :=
  snd ((Set_ "a" 1 ;; Set_ "c" 3) fresh).

(** [cached] two clock readings later, when ["user:1"] has expired. *)
Definition cached_expired : world Z := with_tick (with_tick cached).

(** Three key/value pairs, the first key given twice. *)
Definition pairs : list (cache.StorageItemMulti Z) :=
  [cache.mkStorageItemMulti "a" 1; cache.mkStorageItemMulti "b" 2;
   cache.mkStorageItemMulti "a" 3].

End Examples.

(** ** Facts about [get], [set] and [delete] *)

Ltac unfold_go :=
  unfold Get, Set_, SetWithTTL, Delete, get, set, delete_,
    storage_Load, storage_Store, storage_Delete, time_Now,
    mbind, mret, M_bind, M_ret, bind, ret in *.

Lemma get_absent {T} `{!GoZero T} (w : world T) key :
  storage (cache w) !! key = None ->
  get key w = (Ret (zero_value, Some (MissingEntryError key)), w).
Proof. intros H. unfold_go. by rewrite H. Qed.

Lemma get_other {T} `{!GoZero T} (w : world T) key dyn :
  storage (cache w) !! key = Some (AnyOther dyn) ->
  get key w = (Ret (zero_value, Some (FailedToCastEntryError key None)),
               with_storage (delete key) w).
Proof. intros H. unfold_go. by rewrite H. Qed.

Lemma get_no_ttl {T} `{!GoZero T} (w : world T) key e :
  storage (cache w) !! key = Some (AnyWithTTL e) ->
  TTL e = None ->
  get key w = (Ret (Value e, None), w).
Proof. intros H Ht. unfold_go. by rewrite H, Ht. Qed.

Lemma get_fresh {T} `{!GoZero T} (w : world T) key e ttl :
  storage (cache w) !! key = Some (AnyWithTTL e) ->
  TTL e = Some ttl ->
  clock w (ticks w) < UpdatedAt e + ttl ->
  get key w = (Ret (Value e, None), with_tick w).
Proof.
  intros H Ht Hlt. unfold_go. rewrite H, Ht. unfold After, Add.
  rewrite bool_decide_eq_true_2 by lia. done.
Qed.

Lemma get_expired {T} `{!GoZero T} (w : world T) key e ttl :
  storage (cache w) !! key = Some (AnyWithTTL e) ->
  TTL e = Some ttl ->
  UpdatedAt e + ttl <= clock w (ticks w) ->
  get key w = (Ret (zero_value, Some (MissingEntryError key)),
               with_storage (delete key) (with_tick w)).
Proof.
  intros H Ht Hle. unfold_go. rewrite H, Ht. unfold After, Add.
  rewrite bool_decide_eq_false_2 by lia. done.
Qed.

Lemma set_storage {T} `{!GoZero T} (w : world T) key value ttl :
  storage (cache (snd (set key value ttl w))) =
  <[key := AnyWithTTL (mkWithTTL (clock w (ticks w))
                         (match ttl with Some _ => ttl | None => defaultTTL (cache w) end)
                         value)]> (storage (cache w)).
Proof. reflexivity. Qed.

Lemma get_cases {T} `{!GoZero T} (w : world T) key :
  get_result key w (get key w).
Proof.
  destruct (storage (cache w) !! key) as [[e|dyn]|] eqn:H.
  - destruct (TTL e) as [ttl|] eqn:Ht.
    + destruct (Z_lt_le_dec (clock w (ticks w)) (UpdatedAt e + ttl)).
      * erewrite get_fresh by eauto. by constructor.
      * erewrite get_expired by eauto. by constructor.
    + erewrite get_no_ttl by eauto. by constructor.
  - erewrite get_other by eauto. by constructor.
  - rewrite get_absent by done. constructor. by rewrite delete_id.
Qed.

Lemma get_frame {T} `{!GoZero T} (w : world T) key :
  rwQueue (cache (snd (get key w))) = rwQueue (cache w) /\
  defaultTTL (cache (snd (get key w))) = defaultTTL (cache w) /\
  chans (snd (get key w)) = chans w /\
  clock (snd (get key w)) = clock w /\
  trace (snd (get key w)) = trace w.
Proof.
  unfold_go. destruct (storage (cache w) !! key) as [[e|dyn]|]; try done.
  destruct (TTL e); try done. by destruct (After _ _).
Qed.

(** [get] looks at [storage], [clock] and [ticks] only. *)
Lemma get_ext {T} `{!GoZero T} (w1 w2 : world T) key :
  storage (cache w1) = storage (cache w2) ->
  clock w1 = clock w2 -> ticks w1 = ticks w2 ->
  fst (get key w1) = fst (get key w2) /\
  storage (cache (snd (get key w1))) = storage (cache (snd (get key w2))).
Proof.
  destruct w1 as [[s1 q1 d1] ch1 cl1 t1 tr1], w2 as [[s2 q2 d2] ch2 cl2 t2 tr2].
  simpl. intros -> -> ->. unfold_go. simpl.
  destruct (s2 !! key) as [[e|dyn]|]; simpl; try done.
  destruct (TTL e); simpl; try done.
  by destruct (After _ _).
Qed.

(** C6: a key written at instant [t0] with TTL [d] (given explicitly, or
    taken from the default TTL of the cache) is returned by [get] at every
    instant [now < t0 + d]; at every instant [now >= t0 + d], [get] fails
    with [MissingEntryError] and removes the entry, so that a probe of the
    store no longer finds the key. *)
Theorem C6_ttl_expiry {T} `{!GoZero T} (w w' : world T) key value ttl d :
  let t0 := clock w (ticks w) in
  let now := clock w' (ticks w') in
  match ttl with Some _ => ttl | None => defaultTTL (cache w) end = Some d ->
  storage (cache w') !! key = storage (cache (snd (set key value ttl w))) !! key ->
  (now < t0 + d -> fst (get key w') = Ret (value, None)) /\
  (t0 + d <= now ->
     fst (get key w') = Ret (zero_value, Some (MissingEntryError key)) /\
     fst (storage_Load key (snd (get key w'))) = Ret None).
Proof.
  intros t0 now Hd Hk. rewrite set_storage, lookup_insert_eq, Hd in Hk.
  split; intros Hnow.
  - by erewrite get_fresh by eauto.
  - erewrite get_expired by eauto. split; [done|].
    unfold storage_Load; simpl. by rewrite lookup_delete_eq.
Qed.

Lemma C6_ttl_expiry_witness :
  fst (get "user:1" Examples.cached) = Ret (7, None) /\
  fst (get "user:1" Examples.cached_later) =
    Ret (0, Some (MissingEntryError "user:1")) /\
  fst (storage_Load "user:1" (snd (get "user:1" Examples.cached_later))) = Ret None.
Proof.
  split.
  - apply (C6_ttl_expiry Examples.fresh Examples.cached "user:1" 7 (Some 100) 100);
      [reflexivity | reflexivity | vm_compute; reflexivity].
  - apply (C6_ttl_expiry Examples.fresh Examples.cached_later "user:1" 7 (Some 100) 100);
      [reflexivity | reflexivity | vm_compute; discriminate].
Defined.

(** C7: when the slot of a key holds a raw value that is not a [withTTL[T]],
    [get] fails with [FailedToCastEntryError] for that key (with no cause)
    and deletes the slot: a probe of the store right afterwards finds
    nothing under the key. *)
Theorem C7_corrupt_entry_self_heals {T} `{!GoZero T} (w : world T) key dyn :
  storage (cache w) !! key = Some (AnyOther dyn) ->
  fst (get key w) = Ret (zero_value, Some (cache.NewFailedToCastEntryError key None)) /\
  fst (storage_Load key (snd (get key w))) = Ret None.
Proof.
  intros H. rewrite (get_other _ _ _ H). split; [done|].
  unfold storage_Load; simpl. by rewrite lookup_delete_eq.
Qed.

Lemma C7_corrupt_entry_self_heals_witness :
  fst (get "user:1" Examples.corrupt) =
    Ret (0, Some (FailedToCastEntryError "user:1" None)) /\
  fst (storage_Load "user:1" (snd (get "user:1" Examples.corrupt))) = Ret None.
Proof.
  apply (C7_corrupt_entry_self_heals Examples.corrupt "user:1" "string").
  reflexivity.
Defined.

(** ** Facts about [GetOrFetch] *)

Lemma after_claim_frame {T} (w : world T) key :
  storage (cache (after_claim key w)) = storage (cache w) /\
  clock (after_claim key w) = clock w /\
  ticks (after_claim key w) = ticks w /\
  chans (after_claim key w) = chans w ++ [true] /\
  trace (after_claim key w) = trace w ++ [EvLoadOrStore key].
Proof. done. Qed.

Lemma after_claim_rwQueue {T} (w : world T) key :
  rwQueue (cache w) !! key = None ->
  rwQueue (cache (after_claim key w)) !! key = Some (AnyChan (length (chans w))).
Proof. intros H. simpl. rewrite H. apply lookup_insert_eq. Qed.

Lemma make_then_close {T} `{!GoZero T} {A} (k : chanref -> M (T:=T) A) (w : world T) :
  (done ← make_chan; chan_close done ;; k done) w =
  k (length (chans w)) (with_chans (fun cs => cs ++ [true]) w).
Proof.
  unfold make_chan, chan_close, mbind, M_bind, bind; simpl.
  rewrite list_lookup_middle by done.
  f_equal. unfold with_chans; simpl. f_equal.
  rewrite insert_app_r_alt by done. by rewrite Nat.sub_diag.
Qed.

Lemma send_on_done {T} `{!GoZero T} (w : world T) done r :
  chans w !! done = Some true ->
  chan_send done r w = (Panic "send on closed channel", w).
Proof. intros H. unfold chan_send. by rewrite H. Qed.

(** A caller that finds a completion signal under [key] returns what it
    receives from that channel. *)
Lemma GetOrFetch_joins {T} `{!GoZero T} (w : world T) key fetcher c :
  rwQueue (cache w) !! key = Some (AnyChan c) ->
  GetOrFetch key fetcher w = chan_recv c (after_claim key w).
Proof.
  intros H. unfold GetOrFetch. rewrite make_then_close.
  destruct w as [[s q d] ch cl t tr]; simpl in H.
  unfold rwQueue_LoadOrStore, after_claim, mbind, M_bind, bind, mret, M_ret, ret; simpl.
  unfold log, with_rwQueue, with_chans; simpl. rewrite H; simpl.
  by destruct (chan_recv c _) as [[r|m|] w'].
Qed.

Lemma step_AtEntry {T} `{!GoZero T} (w : world T) key fetcher :
  step key fetcher AtEntry w =
  (Ret (match rwQueue (cache w) !! key with
        | Some (AnyChan c) => AtRecv c
        | _ => AtGet (length (chans w))
        end), after_claim key w).
Proof.
  unfold step. rewrite make_then_close.
  destruct w as [[s q d] ch cl t tr].
  unfold rwQueue_LoadOrStore, after_claim, mbind, M_bind, bind, mret, M_ret, ret; simpl.
  unfold log, with_rwQueue, with_chans; simpl.
  by destruct (q !! key) as [[c|dyn]|].
Qed.

Lemma leader_tail {T} `{!GoZero T} (w1 : world T) key fetcher done :
  chans w1 !! done = Some true ->
  ('(result, err) ← get key;
   match err with
   | None => mret (result, err)
   | Some e =>
       if negb (errors_As_MissingEntryError e) then mret (result, err)
       else '(result, err) ← call fetcher;
            chan_send done (result, err) ;;
            rwQueue_Delete key ;; mret (result, err)
   end) w1 =
  match get key w1 with
  | (Ret (result, None), w') => (Ret (result, None), w')
  | (Ret (result, Some e), w') =>
      if errors_As_MissingEntryError e
      then (Panic "send on closed channel", log EvFetcher w')
      else (Ret (result, Some e), w')
  | (Panic msg, w') => (Panic msg, w')
  | (Blocked, w') => (Blocked, w')
  end.
Proof.
  intros Hdone.
  pose proof (get_frame w1 key) as (_ & _ & Hch & _ & _).
  unfold mbind at 1; unfold M_bind, bind.
  destruct (get key w1) as [[[result [e|]]|msg|] w'] eqn:Hg; simpl in *; try done.
  destruct (errors_As_MissingEntryError e); simpl; [|done].
  unfold call, mbind, M_bind, bind; simpl.
  destruct (fetcher ()) as [v err].
  rewrite send_on_done; [done|].
  simpl. by rewrite Hch.
Qed.

Lemma GetOrFetch_checks {T} `{!GoZero T} (w : world T) key fetcher :
  ~ in_flight w key ->
  GetOrFetch key fetcher w =
    match get key (after_claim key w) with
    | (Ret (result, None), w') => (Ret (result, None), w')
    | (Ret (result, Some e), w') =>
        if errors_As_MissingEntryError e
        then (Panic "send on closed channel", log EvFetcher w')
        else (Ret (result, Some e), w')
    | (Panic msg, w') => (Panic msg, w')
    | (Blocked, w') => (Blocked, w')
    end.
Proof.
  intros Hq.
  rewrite <- (leader_tail (after_claim key w) key fetcher (length (chans w)))
    by (simpl; by apply list_lookup_middle).
  unfold GetOrFetch. rewrite make_then_close.
  unfold in_flight in Hq.
  destruct w as [[s q d] ch cl t tr]; simpl in Hq.
  unfold rwQueue_LoadOrStore, after_claim; unfold mbind at 1; unfold M_bind, bind; simpl.
  unfold log, with_rwQueue, with_chans; simpl.
  destruct (q !! key) as [[c|dyn]|] eqn:Hk; simpl; try done.
  destruct Hq. by exists c.
Qed.

Lemma events_since_app {T} (w w' : world T) evs :
  trace w' = trace w ++ evs -> events_since w w' = evs.
Proof. intros H. unfold events_since. by rewrite H, drop_app_length. Qed.

(** The backend check of a caller that does not join gives what [get] gives
    on the world the caller was started in. *)
Lemma check_after_claim {T} `{!GoZero T} (w : world T) key :
  fst (get key (after_claim key w)) = fst (get key w) /\
  storage (cache (snd (get key (after_claim key w)))) =
    storage (cache (snd (get key w))).
Proof. by apply get_ext. Qed.

(** Everything a call of [GetOrFetch] that does not join does, by the result
    of its backend check. *)
Lemma GetOrFetch_no_join {T} `{!GoZero T} (w : world T) key fetcher :
  ~ in_flight w key ->
  exists r w1,
    get key (after_claim key w) = (Ret r, w1) /\
    fst (get key w) = Ret r /\
    storage (cache w1) = storage (cache (snd (get key w))) /\
    rwQueue (cache w1) = rwQueue (cache (after_claim key w)) /\
    chans w1 = chans w ++ [true] /\
    trace w1 = trace w ++ [EvLoadOrStore key] /\
    GetOrFetch key fetcher w =
      match snd r with
      | None => (Ret r, w1)
      | Some e =>
          if errors_As_MissingEntryError e
          then (Panic "send on closed channel", log EvFetcher w1)
          else (Ret r, w1)
      end.
Proof.
  intros Hq. rewrite (GetOrFetch_checks _ _ _ Hq).
  pose proof (get_cases (after_claim key w) key) as Hc.
  pose proof (check_after_claim w key) as [Hfst Hsto].
  pose proof (get_frame (after_claim key w) key) as (Hrq & _ & Hch & _ & Htr).
  destruct (get key (after_claim key w)) as [o w1]; simpl in Hfst, Hsto, Hrq, Hch, Htr.
  rewrite <- Hfst, <- Hsto.
  inversion Hc; subst o; eexists _, w1; by repeat split.
Qed.

(** C2: the call on a missing key does not complete.  When the backend check
    of a caller that does not join yields the missing condition,
    [GetOrFetch] invokes the fetcher exactly once and then panics in the
    send on its own, already closed, channel: the pair the fetcher produced
    is never returned. *)
Theorem C2_fetch_path_panics {T} `{!GoZero T} (w : world T) key fetcher :
  ~ in_flight w key ->
  fst (get key w) = Ret (zero_value, Some (MissingEntryError key)) ->
  let r := GetOrFetch key fetcher w in
  fst r = Panic "send on closed channel" /\
  fetcher_calls (events_since w (snd r)) = 1%nat.
Proof.
  intros Hq Hmiss.
  destruct (GetOrFetch_no_join w key fetcher Hq)
    as (r & w1 & _ & Hr & _ & _ & _ & Htr & ->).
  rewrite Hmiss in Hr. injection Hr as <-. simpl. split; [done|].
  erewrite events_since_app; [|simpl; rewrite Htr, <- app_assoc; done].
  done.
Qed.

Lemma C2_fetch_path_panics_witness :
  let r := GetOrFetch "user:1" Examples.fetch42 Examples.fresh in
  fst r = Panic "send on closed channel" /\
  fetcher_calls (events_since Examples.fresh (snd r)) = 1%nat.
Proof.
  apply (C2_fetch_path_panics Examples.fresh "user:1" Examples.fetch42).
  - intros [c Hc]. vm_compute in Hc. discriminate.
  - reflexivity.
Defined.

Lemma missing_then_absent {T} `{!GoZero T} (w : world T) key :
  fst (get key w) = Ret (zero_value, Some (MissingEntryError key)) ->
  storage (cache (snd (get key w))) !! key = None.
Proof.
  intros Hmiss. pose proof (get_cases w key) as Hc.
  destruct (get key w) as [o w1]; simpl in *; subst o.
  inversion Hc as [| w' Hs | ]; subst. rewrite Hs. apply lookup_delete_eq.
Qed.

(** C3: the fetched value is not persisted.  When the backend check of a
    caller that does not join yields the missing condition and the fetcher
    returns [value] with a nil error, [GetOrFetch] panics in its send, and the
    store holds nothing under [key] afterwards: a probe finds no entry and a
    [get] of the key fails with [MissingEntryError]. *)
Theorem C3_fetched_value_not_persisted {T} `{!GoZero T} (w : world T) key fetcher value :
  ~ in_flight w key ->
  fst (get key w) = Ret (zero_value, Some (MissingEntryError key)) ->
  fetcher tt = (value, None) ->
  let r := GetOrFetch key fetcher w in
  fst r = Panic "send on closed channel" /\
  fst (storage_Load key (snd r)) = Ret None /\
  fst (get key (snd r)) = Ret (zero_value, Some (MissingEntryError key)) /\
  fst (get key (snd r)) <> Ret (value, None).
Proof.
  intros Hq Hmiss _.
  cut (let r := GetOrFetch key fetcher w in
       fst r = Panic "send on closed channel" /\
       fst (storage_Load key (snd r)) = Ret None /\
       fst (get key (snd r)) = Ret (zero_value, Some (MissingEntryError key))).
  { cbv zeta. intros (H1 & H2 & H3). repeat split; try done. by rewrite H3. }
  pose proof (missing_then_absent w key Hmiss) as Habs.
  destruct (GetOrFetch_no_join w key fetcher Hq)
    as (r & w1 & _ & Hr & Hsto & _ & _ & _ & ->).
  rewrite Hmiss in Hr. injection Hr as <-. simpl.
  rewrite <- Hsto in Habs.
  split; [done|]. split.
  - unfold storage_Load; simpl. by rewrite Habs.
  - by rewrite get_absent.
Qed.

Lemma C3_fetched_value_not_persisted_witness :
  let r := GetOrFetch "user:1" Examples.fetch42 Examples.fresh in
  fst r = Panic "send on closed channel" /\
  fst (storage_Load "user:1" (snd r)) = Ret None /\
  fst (get "user:1" (snd r)) = Ret (0, Some (MissingEntryError "user:1")) /\
  fst (get "user:1" (snd r)) <> Ret (42, None).
Proof.
  apply (C3_fetched_value_not_persisted Examples.fresh "user:1" Examples.fetch42 42).
  - intros [c Hc]. vm_compute in Hc. discriminate.
  - reflexivity.
  - reflexivity.
Defined.

(** C4: the registry entry is not removed.  Whenever a caller of
    [GetOrFetch] claims leadership for a key (the registry held nothing under
    it), the completion signal the caller stored is still in the registry
    when the call is over, whatever the backend check and the fetcher did, and
    the call has run no [Delete] on the registry. *)
Theorem C4_registry_entry_left_behind {T} `{!GoZero T} (w : world T) key fetcher :
  rwQueue (cache w) !! key = None ->
  let r := GetOrFetch key fetcher w in
  rwQueue (cache (snd r)) !! key = Some (AnyChan (length (chans w))) /\
  EvQueueDelete key ∉ events_since w (snd r).
Proof.
  intros Hnone.
  assert (Hq : ~ in_flight w key) by (intros [c Hc]; congruence).
  destruct (GetOrFetch_no_join w key fetcher Hq)
    as (r & w1 & _ & _ & _ & Hrq & _ & Htr & ->).
  pose proof (after_claim_rwQueue w key Hnone) as Hk. rewrite <- Hrq in Hk.
  destruct r as [v [e|]]; simpl; [destruct (errors_As_MissingEntryError e)|]; simpl.
  - split; [done|].
    erewrite events_since_app; [|simpl; rewrite Htr, <- app_assoc; done].
    simpl. rewrite !not_elem_of_cons. repeat split; try done. apply not_elem_of_nil.
  - split; [done|]. erewrite events_since_app by done.
    simpl. rewrite !not_elem_of_cons. repeat split; try done. apply not_elem_of_nil.
  - split; [done|]. erewrite events_since_app by done.
    simpl. rewrite !not_elem_of_cons. repeat split; try done. apply not_elem_of_nil.
Qed.

Lemma C4_registry_entry_left_behind_witness :
  let r := GetOrFetch "user:1" Examples.fetch42 Examples.cached in
  rwQueue (cache (snd r)) !! "user:1" = Some (AnyChan 0%nat) /\
  EvQueueDelete "user:1" ∉ events_since Examples.cached (snd r).
Proof.
  apply (C4_registry_entry_left_behind Examples.cached "user:1" Examples.fetch42).
  reflexivity.
Defined.

(** What the signal left behind does to the next caller: it joins the closed
    channel and gets the zero value with a nil error, without a look at the
    store and without a call of the fetcher. *)
Lemma stale_signal_answers_zero {T} `{!GoZero T} (w : world T) key fetcher c :
  rwQueue (cache w) !! key = Some (AnyChan c) ->
  chans w !! c = Some true ->
  GetOrFetch key fetcher w = (Ret (zero_value, None), after_claim key w).
Proof.
  intros Hk Hc. rewrite (GetOrFetch_joins _ _ _ _ Hk). unfold chan_recv.
  simpl. by rewrite lookup_app_l_Some with (x := true).
Qed.

Lemma get_live {T} `{!GoZero T} (w : world T) key e :
  storage (cache w) !! key = Some (AnyWithTTL e) ->
  live_at (clock w (ticks w)) e = true ->
  fst (get key w) = Ret (Value e, None) /\
  storage (cache (snd (get key w))) = storage (cache w).
Proof.
  intros Hk Hlive. unfold live_at in Hlive.
  destruct (TTL e) as [ttl|] eqn:Ht.
  - apply bool_decide_eq_true_1 in Hlive. by erewrite get_fresh by eauto.
  - by erewrite get_no_ttl by eauto.
Qed.

(** For a live key the call logs its [LoadOrStore] and nothing else that
    counts as a call of the fetcher, whatever the registry holds. *)
Lemma GetOrFetch_live_trace {T} `{!GoZero T} (w : world T) key fetcher e :
  storage (cache w) !! key = Some (AnyWithTTL e) ->
  live_at (clock w (ticks w)) e = true ->
  exists evs,
    trace (snd (GetOrFetch key fetcher w)) = trace w ++ EvLoadOrStore key :: evs /\
    fetcher_calls (EvLoadOrStore key :: evs) = 0%nat.
Proof.
  intros Hk Hlive. exists [].
  destruct (rwQueue (cache w) !! key) as [[c|dyn]|] eqn:Hq.
  - rewrite (GetOrFetch_joins _ _ _ _ Hq). unfold chan_recv.
    by destruct (chans (after_claim key w) !! c) as [[|]|].
  - assert (Hnj : ~ in_flight w key) by (intros [c Hc]; congruence).
    destruct (get_live w key e Hk Hlive) as [Hget _].
    destruct (GetOrFetch_no_join w key fetcher Hnj)
      as (r & w1 & _ & Hr & _ & _ & _ & Htr & ->).
    rewrite Hget in Hr. by injection Hr as <-.
  - assert (Hnj : ~ in_flight w key) by (intros [c Hc]; congruence).
    destruct (get_live w key e Hk Hlive) as [Hget _].
    destruct (GetOrFetch_no_join w key fetcher Hnj)
      as (r & w1 & _ & Hr & _ & _ & _ & Htr & ->).
    rewrite Hget in Hr. by injection Hr as <-.
Qed.

(** C5, as amended: for a key that holds a live entry in the store,
    [GetOrFetch] does not invoke the fetcher, whatever the registry holds.
    It does interact with the registry: its first action is the
    [LoadOrStore] that claims the key.  When no completion signal is
    registered for the key as the call starts, that claim is made before the
    backend check: the first step of the call leaves the key registered and
    the store and the clock untouched, with the caller at [c.get(key)]; the
    check, made in that world, then finds the entry, and the call returns
    the cached value. *)
Theorem C5_live_key_served_after_claim {T} `{!GoZero T} (w : world T) key fetcher e :
  storage (cache w) !! key = Some (AnyWithTTL e) ->
  live_at (clock w (ticks w)) e = true ->
  let r := GetOrFetch key fetcher w in
  fetcher_calls (events_since w (snd r)) = 0%nat /\
  head (events_since w (snd r)) = Some (EvLoadOrStore key) /\
  (~ in_flight w key ->
     fst r = Ret (Value e, None) /\
     exists done,
       step key fetcher AtEntry w = (Ret (AtGet done), after_claim key w) /\
       is_Some (rwQueue (cache (after_claim key w)) !! key) /\
       storage (cache (after_claim key w)) = storage (cache w) /\
       ticks (after_claim key w) = ticks w /\
       step key fetcher (AtGet done) (after_claim key w) =
         (Ret (Returned (Value e, None)), snd r)).
Proof.
  intros Hk Hlive. cbv zeta.
  destruct (GetOrFetch_live_trace w key fetcher e Hk Hlive) as (evs & Htr & Hcalls).
  rewrite (events_since_app _ _ _ Htr).
  split; [done|]. split; [done|]. intros Hq.
  destruct (get_live w key e Hk Hlive) as [Hget _].
  destruct (GetOrFetch_no_join w key fetcher Hq)
    as (r & w1 & Hg & Hr & _ & _ & _ & _ & ->).
  rewrite Hget in Hr. injection Hr as <-. cbn [fst snd].
  split; [done|]. exists (length (chans w)).
  split; [|split; [|split; [done|split; [done|]]]].
  - rewrite step_AtEntry.
    destruct (rwQueue (cache w) !! key) as [[c|dyn]|] eqn:Hrq; [|done..].
    destruct Hq. by exists c.
  - simpl. destruct (rwQueue (cache w) !! key) as [v|] eqn:Hrq;
      [by rewrite Hrq|rewrite lookup_insert_eq; by eexists].
  - cbn [step]. unfold mbind, M_bind, bind. by rewrite Hg.
Qed.

Lemma C5_live_key_served_after_claim_witness :
  let r := GetOrFetch "user:1" Examples.fetch42 Examples.cached in
  fetcher_calls (events_since Examples.cached (snd r)) = 0%nat /\
  head (events_since Examples.cached (snd r)) = Some (EvLoadOrStore "user:1") /\
  fst r = Ret (7, None) /\
  exists done,
    step "user:1" Examples.fetch42 AtEntry Examples.cached =
      (Ret (AtGet done), after_claim "user:1" Examples.cached) /\
    is_Some (rwQueue (cache (after_claim "user:1" Examples.cached)) !! "user:1") /\
    storage (cache (after_claim "user:1" Examples.cached)) =
      storage (cache Examples.cached) /\
    ticks (after_claim "user:1" Examples.cached) = ticks Examples.cached /\
    step "user:1" Examples.fetch42 (AtGet done) (after_claim "user:1" Examples.cached) =
      (Ret (Returned (7, None)), snd r).
Proof.
  destruct (C5_live_key_served_after_claim Examples.cached "user:1" Examples.fetch42
              (mkWithTTL 0 (Some 100) 7) eq_refl eq_refl) as (Hcalls & Hhead & Hserved).
  split; [exact Hcalls|]. split; [exact Hhead|].
  apply Hserved. intros [c Hc]. vm_compute in Hc. discriminate.
Defined.

(** C5, as the specification words it, fails: on a cache where ["user:1"] is
    live and the registry is empty the call does operate on the registry; and
    on the cache that this very call leaves behind, where the registry holds
    the signal of the first call, the next call returns the zero value
    instead of the cached 7. *)
Lemma C5_counterexample :
  ~ served_without_registry Examples.cached "user:1" Examples.fetch42 /\
  ~ served_without_registry Examples.pinned_claimed "user:1" Examples.fetch42.
Proof.
  split; intros H.
  - destruct (H (mkWithTTL 0 (Some 100) 7) eq_refl eq_refl) as (_ & _ & Hops).
    vm_compute in Hops. discriminate.
  - destruct (H (mkWithTTL 0 None 7) eq_refl eq_refl) as (Hret & _ & _).
    vm_compute in Hret. discriminate.
Qed.

(** C8: in [GetOrFetch] the fetcher runs only when the backend check was
    made and gave [MissingEntryError]; whenever the check gives another
    error, that error is returned to the caller as it is and the fetcher is not
    invoked.  In particular a slot of a foreign type makes the call return
    [FailedToCastEntryError] with no fetch. *)
Theorem C8_only_miss_triggers_fetch {T} `{!GoZero T} (w : world T) key fetcher :
  let r := GetOrFetch key fetcher w in
  (fetcher_calls (events_since w (snd r)) <> 0%nat ->
     ~ in_flight w key /\
     fst (get key w) = Ret (zero_value, Some (MissingEntryError key))) /\
  (~ in_flight w key ->
     forall v e,
       fst (get key w) = Ret (v, Some e) ->
       errors_As_MissingEntryError e = false ->
       fst r = Ret (v, Some e) /\
       fetcher_calls (events_since w (snd r)) = 0%nat) /\
  (~ in_flight w key ->
     forall dyn,
       storage (cache w) !! key = Some (AnyOther dyn) ->
       fst r = Ret (zero_value, Some (FailedToCastEntryError key None)) /\
       fetcher_calls (events_since w (snd r)) = 0%nat).
Proof.
  assert (Hother : ~ in_flight w key ->
     forall v e,
       fst (get key w) = Ret (v, Some e) ->
       errors_As_MissingEntryError e = false ->
       fst (GetOrFetch key fetcher w) = Ret (v, Some e) /\
       fetcher_calls (events_since w (snd (GetOrFetch key fetcher w))) = 0%nat).
  { intros Hq v e Hget Has.
    destruct (GetOrFetch_no_join w key fetcher Hq)
      as (r & w1 & _ & Hr & _ & _ & _ & Htr & ->).
    rewrite Hget in Hr. injection Hr as <-. simpl. rewrite Has. simpl.
    by erewrite events_since_app by done. }
  simpl. split; [|split].
  - intros Hcalls.
    assert (Hq : ~ in_flight w key).
    { intros [c Hk]. apply Hcalls. rewrite (GetOrFetch_joins _ _ _ _ Hk).
      unfold chan_recv.
      destruct (chans (after_claim key w) !! c) as [[|]|]; simpl;
        by erewrite events_since_app by done. }
    split; [done|].
    destruct (GetOrFetch_no_join w key fetcher Hq)
      as (r & w1 & _ & Hr & _ & _ & _ & Htr & Hgo).
    rewrite Hgo in Hcalls. pose proof (get_cases w key) as Hc.
    destruct (get key w) as [o w2]; simpl in Hr; subst o.
    inversion Hc; subst; simpl in Hcalls; try done;
      exfalso; apply Hcalls; by erewrite events_since_app by done.
  - exact Hother.
  - intros Hq dyn Hk. apply Hother; [done| |done].
    by rewrite (get_other _ _ _ Hk).
Qed.

Lemma C8_only_miss_triggers_fetch_witness :
  (let r := GetOrFetch "user:1" Examples.fetch42 Examples.fresh in
   ~ in_flight Examples.fresh "user:1" /\
   fst (get "user:1" Examples.fresh) = Ret (0, Some (MissingEntryError "user:1"))) /\
  (let r := GetOrFetch "user:1" Examples.fetch42 Examples.corrupt in
   fst r = Ret (0, Some (FailedToCastEntryError "user:1" None)) /\
   fetcher_calls (events_since Examples.corrupt (snd r)) = 0%nat).
Proof.
  split.
  - apply (C8_only_miss_triggers_fetch Examples.fresh "user:1" Examples.fetch42).
    vm_compute. discriminate.
  - apply (C8_only_miss_triggers_fetch Examples.corrupt "user:1" Examples.fetch42)
      with (dyn := "string").
    + intros [c Hc]. vm_compute in Hc. discriminate.
    + reflexivity.
Defined.

(** ** Facts about [GetMulti] *)

Lemma get_each_keys {T} `{!GoZero T} (keys : list string) (w : world T) :
  (get_each keys w).*1 = keys.
Proof.
  revert w. induction keys as [|key keys IH]; intros w; [done|]. simpl.
  pose proof (get_cases w key) as Hc.
  destruct (get key w) as [o w1]. inversion Hc; subst; simpl; by rewrite IH.
Qed.

Lemma GetMulti_loop_spec {T} `{!GoZero T} (keys : list string) res (w : world T) :
  fst (GetMulti_loop keys res w) = Ret (res ++ omap found_item (get_each keys w)).
Proof.
  revert res w. induction keys as [|key keys IH]; intros res w; simpl.
  - by rewrite app_nil_r.
  - unfold mbind, M_bind, bind. pose proof (get_cases w key) as Hc.
    destruct (get key w) as [o w1]. inversion Hc; subst; simpl; rewrite IH; try done.
    by rewrite <- app_assoc.
Qed.

Lemma length_omap_le {A B} (f : A -> option B) (l : list A) :
  (length (omap f l) <= length l)%nat.
Proof.
  induction l as [|a l IH]; [done|].
  change (omap f (a :: l))
    with (match f a with Some y => y :: omap f l | None => omap f l end).
  destruct (f a); cbn [length]; lia.
Qed.

(** C9: [GetMulti] never reports an error.  Its result holds, in request
    order, exactly one item [(key, value)] for every requested key whose
    [get] succeeds and nothing for a key whose [get] fails, so it is at most
    as long as the list of requested keys. *)
Theorem C9_GetMulti_skips_failures {T} `{!GoZero T} (w : world T) (keys : list string) :
  (get_each keys w).*1 = keys /\
  fst (GetMulti keys w) = Ret (omap found_item (get_each keys w), None) /\
  (length (omap found_item (get_each keys w)) <= length keys)%nat.
Proof.
  split; [apply get_each_keys|]. split.
  - unfold GetMulti, mbind, M_bind, bind.
    pose proof (GetMulti_loop_spec keys [] w) as Hl.
    destruct (GetMulti_loop keys [] w) as [o w1]. simpl in Hl. by subst o.
  - assert (Hlen : length keys = length (get_each keys w)).
    { rewrite <- (get_each_keys keys w) at 1. by rewrite length_fmap. }
    rewrite Hlen. apply length_omap_le.
Qed.

(** The bulk scenario of the specification: of ["a"], ["b"], ["c"] only
    ["a"] and ["c"] are stored. *)
Example GetMulti_partial_miss :
  fst (GetMulti ["a"; "b"; "c"] Examples.two_of_three) =
    Ret ([cache.mkStorageItemMulti "a" 1; cache.mkStorageItemMulti "c" 3], None).
Proof. reflexivity. Qed.

(** ** Facts about [cache.AsMap] *)

Lemma AsMap_fold_lookup {T} (xs : list (cache.StorageItemMulti T))
    (m : gmap string T) key :
  fold_left (fun m v => <[cache.Key v := cache.Value v]> m) xs m !! key =
  match last (filter (fun x => cache.Key x = key) xs) with
  | Some x => Some (cache.Value x)
  | None => m !! key
  end.
Proof.
  revert m. induction xs as [|x xs IH]; intros m; simpl; [done|].
  rewrite IH, filter_cons. destruct (decide (cache.Key x = key)) as [Heq|Hne].
  - rewrite last_cons. destruct (last (filter _ xs)); [done|].
    by rewrite Heq, lookup_insert_eq.
  - destruct (last (filter _ xs)); [done|]. by rewrite lookup_insert_ne.
Qed.

(** C10: the key set of [AsMap xs] is exactly the set of keys that occur in
    [xs], and every key is mapped to the [Value] of the last element of [xs]
    that bears it (a later duplicate overwrites an earlier one). *)
Theorem C10_AsMap_last_wins {T} (xs : list (cache.StorageItemMulti T)) :
  dom (cache.AsMap xs) = list_to_set (cache.Key <$> xs) /\
  forall key,
    cache.AsMap xs !! key =
    cache.Value <$> last (filter (fun x => cache.Key x = key) xs).
Proof.
  assert (Hlookup : forall key,
    cache.AsMap xs !! key =
    cache.Value <$> last (filter (fun x => cache.Key x = key) xs)).
  { intros key. unfold cache.AsMap. rewrite AsMap_fold_lookup.
    by destruct (last _). }
  split; [|done].
  apply set_eq. intros key.
  rewrite elem_of_dom, Hlookup, elem_of_list_to_set, list_elem_of_fmap, fmap_is_Some,
    last_is_Some.
  split.
  - intros Hne. destruct (filter _ xs) as [|x l] eqn:Hf; [done|].
    assert (x ∈ filter (fun x => cache.Key x = key) xs) as Hin
      by (rewrite Hf; apply elem_of_cons; by left).
    apply list_elem_of_filter in Hin as [Hk Hin]. by exists x.
  - intros (x & -> & Hin) Hnil.
    assert (x ∈ filter (fun y => cache.Key y = cache.Key x) xs) as Hx
      by (by apply list_elem_of_filter).
    rewrite Hnil in Hx. by apply elem_of_nil in Hx.
Qed.

Example AsMap_duplicates :
  cache.AsMap [cache.mkStorageItemMulti "a" 1; cache.mkStorageItemMulti "b" 2;
               cache.mkStorageItemMulti "a" 3]
  = <["a" := 3]> (<["b" := 2]> ∅).
Proof. apply map_eq. intros k. vm_compute. reflexivity. Qed.

(** ** Facts about concurrent callers of [GetOrFetch] *)

Lemma after_claim_closed {T} (w : world T) key c :
  chans w !! c = Some true -> chans (after_claim key w) !! c = Some true.
Proof. intros H. simpl. by apply lookup_app_l_Some. Qed.

Lemma step_goroutine_inv {T} `{!GoZero T} key (g : goroutine T) (w : world T) :
  g_key g = key ->
  pc_settled w (g_pc g) ->
  pool_inv key ([], w) ->
  pool_inv key ([fst (step_goroutine g w)], snd (step_goroutine g w)) /\
  (forall c, chans w !! c = Some true ->
             chans (snd (step_goroutine g w)) !! c = Some true).
Proof.
  intros Hkey Hpc (Hsto & Hreg & _). destruct g as [k f p].
  cbn [g_key g_pc fst snd] in *. subst k.
  assert (Hstay : forall p' : pc T, pc_settled w p' ->
    pool_inv key ([mkGoroutine key f p'], w) /\
    (forall c, chans w !! c = Some true -> chans w !! c = Some true)).
  { intros p' Hp'. split; [|done]. split; [done|]. split; [done|].
    by repeat constructor. }
  unfold step_goroutine; cbn [g_key g_fetcher g_pc].
  destruct p as [|c|c|c|c r|r|r|msg].
  - rewrite step_AtEntry. cbn [fst snd].
    split; [|intros c; apply after_claim_closed].
    split; [exact Hsto|]. cbn [fst snd]. split.
    + intros v. simpl. destruct (rwQueue (cache w) !! key) as [v0|] eqn:Hk.
      * rewrite Hk. intros [= <-]. destruct (Hreg v0 eq_refl) as (c & -> & Hc).
        exists c. split; [done|]. by apply lookup_app_l_Some.
      * rewrite lookup_insert_eq. intros [= <-]. eexists. split; [done|].
        by apply list_lookup_middle.
    + constructor; [|constructor]. split; [done|]. cbn [g_pc].
      destruct (rwQueue (cache w) !! key) as [v0|] eqn:Hk.
      * destruct (Hreg v0 eq_refl) as (c & -> & Hc).
        by apply after_claim_closed.
      * simpl. by apply list_lookup_middle.
  - cbn [step]. unfold mbind, M_bind, bind, chan_recv. cbn [pc_settled] in Hpc.
    rewrite Hpc. by apply Hstay.
  - cbn [step]. unfold mbind, M_bind, bind. rewrite (get_absent _ _ Hsto).
    by apply Hstay.
  - cbn [step]. unfold mbind, M_bind, bind, call. cbn [fst snd].
    split; [|done]. split; [done|]. split; [done|]. by repeat constructor.
  - cbn [step]. unfold mbind, M_bind, bind. rewrite send_on_done by done.
    by apply Hstay.
  - done.
  - by apply Hstay.
  - by apply Hstay.
Qed.

Lemma pc_settled_mono {T} `{!GoZero T} (w w' : world T) (p : pc T) :
  (forall c, chans w !! c = Some true -> chans w' !! c = Some true) ->
  pc_settled w p -> pc_settled w' p.
Proof. intros Hmono. destruct p; simpl; auto. Qed.

Lemma sched_step_inv {T} `{!GoZero T} key i (st : list (goroutine T) * world T) :
  pool_inv key st -> pool_inv key (sched_step i st).
Proof.
  destruct st as [gs w]. intros (Hsto & Hreg & Hall). unfold sched_step.
  cbn [fst snd] in *.
  destruct (gs !! i) as [g|] eqn:Hi; [|by repeat split].
  destruct (proj1 (Forall_lookup _ _) Hall i g Hi) as [Hkey Hpc].
  destruct (step_goroutine_inv key g w Hkey Hpc) as [(Hsto' & Hreg' & Hg') Hmono].
  { by repeat split. }
  destruct (step_goroutine g w) as [g' w']. cbn [fst snd] in *.
  split; [done|]. split; [done|].
  apply Forall_insert; [|by inversion Hg'].
  eapply Forall_impl; [exact Hall|].
  intros g0 [Hk0 Hp0]. split; [done|]. by eapply pc_settled_mono.
Qed.

Lemma run_schedule_inv {T} `{!GoZero T} key schedule (st : list (goroutine T) * world T) :
  pool_inv key st -> pool_inv key (run_schedule schedule st).
Proof.
  revert st. induction schedule as [|i schedule IH]; intros st Hinv; [done|].
  apply IH. by apply sched_step_inv.
Qed.

Lemma fetcher_calls_snoc (tr : list event) (e : event) :
  fetcher_calls (tr ++ [e]) =
  (fetcher_calls tr + if decide (e = EvFetcher) then 1 else 0)%nat.
Proof.
  unfold fetcher_calls. rewrite filter_app, length_app. f_equal.
  rewrite filter_cons. by destruct (decide (e = EvFetcher)).
Qed.

Lemma pending_insert {T} (gs : list (goroutine T)) i g g' :
  gs !! i = Some g ->
  (pending (<[i := g']> gs) + Nat.b2n (is_pending (g_pc g)) =
   pending gs + Nat.b2n (is_pending (g_pc g')))%nat.
Proof.
  intros Hi. unfold pending.
  rewrite (insert_take_drop gs i g') by (by eapply lookup_lt_Some).
  rewrite <- (take_drop_middle gs i g Hi) at 3.
  rewrite !filter_app, !length_app, !filter_cons.
  destruct (is_pending (g_pc g)), (is_pending (g_pc g'));
    repeat case_decide; try done; simpl; lia.
Qed.

(** One step of one caller spends at most what it gains: a call of the
    fetcher is paid for by leaving the pending state, and the pending state is
    entered only by the step that fills the registry. *)
Lemma step_goroutine_budget {T} `{!GoZero T} key (g : goroutine T) (w : world T) :
  g_key g = key ->
  pc_settled w (g_pc g) ->
  pool_inv key ([], w) ->
  (fetcher_calls (trace (snd (step_goroutine g w)))
   + Nat.b2n (is_pending (g_pc (fst (step_goroutine g w)))) + registered w key
   <= fetcher_calls (trace w) + Nat.b2n (is_pending (g_pc g))
      + registered (snd (step_goroutine g w)) key)%nat.
Proof.
  intros Hkey Hpc (Hsto & Hreg & _). destruct g as [k f p].
  cbn [g_key g_pc fst snd] in *. subst k.
  unfold step_goroutine; cbn [g_key g_fetcher g_pc].
  destruct p as [|c|c|c|c r|r|r|msg].
  - rewrite step_AtEntry. cbn [fst snd g_pc]. unfold registered.
    rewrite (proj2 (proj2 (proj2 (proj2 (after_claim_frame w key))))).
    rewrite fetcher_calls_snoc. simpl.
    destruct (rwQueue (cache w) !! key) as [v0|] eqn:Hk.
    + rewrite Hk. destruct (Hreg v0 eq_refl) as (c & -> & _). simpl. lia.
    + rewrite lookup_insert_eq. simpl. lia.
  - cbn [step]. unfold mbind, M_bind, bind, chan_recv. cbn [pc_settled] in Hpc.
    rewrite Hpc. simpl. lia.
  - cbn [step]. unfold mbind, M_bind, bind. rewrite (get_absent _ _ Hsto).
    simpl. lia.
  - cbn [step]. unfold mbind, M_bind, bind, mret, M_ret, ret, call.
    cbn [fst snd g_pc].
    change (trace (log EvFetcher w)) with (trace w ++ [EvFetcher]).
    rewrite fetcher_calls_snoc. unfold registered. simpl. lia.
  - cbn [step]. unfold mbind, M_bind, bind. rewrite send_on_done by done.
    simpl. lia.
  - done.
  - simpl. lia.
  - simpl. lia.
Qed.

Lemma sched_step_budget {T} `{!GoZero T} key i (st : list (goroutine T) * world T) :
  pool_inv key st ->
  (fetcher_calls (trace (snd (sched_step i st))) + pending (fst (sched_step i st))
   + registered (snd st) key
   <= fetcher_calls (trace (snd st)) + pending (fst st)
      + registered (snd (sched_step i st)) key)%nat.
Proof.
  destruct st as [gs w]. intros (Hsto & Hreg & Hall). unfold sched_step.
  cbn [fst snd] in *.
  destruct (gs !! i) as [g|] eqn:Hi; [|cbn [fst snd]; lia].
  destruct (proj1 (Forall_lookup _ _) Hall i g Hi) as [Hkey Hpc].
  assert (Hinv : pool_inv key ([], w)) by (by repeat split).
  pose proof (step_goroutine_budget key g w Hkey Hpc Hinv) as Hb.
  destruct (step_goroutine g w) as [g' w']. cbn [fst snd] in *.
  pose proof (pending_insert gs i g g' Hi). lia.
Qed.

Lemma run_schedule_budget {T} `{!GoZero T} key schedule
    (st : list (goroutine T) * world T) :
  pool_inv key st ->
  (fetcher_calls (trace (snd (run_schedule schedule st)))
   + pending (fst (run_schedule schedule st)) + registered (snd st) key
   <= fetcher_calls (trace (snd st)) + pending (fst st)
      + registered (snd (run_schedule schedule st)) key)%nat.
Proof.
  revert st. induction schedule as [|i schedule IH]; intros st Hinv; [simpl; lia|].
  pose proof (sched_step_budget key i st Hinv) as Hstep.
  pose proof (IH _ (sched_step_inv key i st Hinv)) as Hrest.
  change (run_schedule (i :: schedule) st)
    with (run_schedule schedule (sched_step i st)).
  lia.
Qed.

Lemma trace_grows {T} `{!GoZero T} schedule (st : list (goroutine T) * world T) :
  exists evs, trace (snd (run_schedule schedule st)) = trace (snd st) ++ evs.
Proof.
  revert st. induction schedule as [|i schedule IH]; intros st.
  - exists []. by rewrite app_nil_r.
  - change (run_schedule (i :: schedule) st)
      with (run_schedule schedule (sched_step i st)).
    destruct (IH (sched_step i st)) as [evs ->].
    assert (exists evs0, trace (snd (sched_step i st)) = trace (snd st) ++ evs0)
      as [evs0 ->]; [|exists (evs0 ++ evs); by rewrite app_assoc].
    destruct st as [gs w]. unfold sched_step. cbn [fst snd].
    destruct (gs !! i) as [g|]; [|exists []; by rewrite app_nil_r].
    assert (exists evs0, trace (snd (step_goroutine g w)) = trace w ++ evs0)
      as [evs0 He]; [|destruct (step_goroutine g w); by exists evs0].
    unfold step_goroutine. destruct g as [k f p]. cbn [g_key g_fetcher g_pc].
    destruct p as [|c|c|c|c r|r|r|msg].
    + rewrite step_AtEntry. by eexists.
    + cbn [step]. unfold mbind, M_bind, bind, chan_recv.
      destruct (chans w !! c) as [[|]|]; exists []; by rewrite app_nil_r.
    + cbn [step]. unfold mbind, M_bind, bind.
      pose proof (get_frame w k) as (_ & _ & _ & _ & Htr).
      pose proof (get_cases w k) as Hc.
      destruct (get k w) as [o w1]. cbn [snd] in Htr.
      inversion Hc; subst; exists []; by rewrite app_nil_r.
    + cbn [step]. unfold mbind, M_bind, bind, call. by eexists.
    + cbn [step]. unfold mbind, M_bind, bind, chan_send.
      destruct (chans w !! c) as [[|]|]; exists []; by rewrite app_nil_r.
    + cbn [step]. unfold mbind, M_bind, bind, rwQueue_Delete. by eexists.
    + exists []. by rewrite app_nil_r.
    + exists []. by rewrite app_nil_r.
Qed.

Lemma pending_callers {T} (n : nat) key (fetcher : unit -> T * option error) :
  pending (callers n key fetcher) = 0%nat.
Proof.
  unfold pending, callers. induction n as [|n IH]; [done|].
  cbn [replicate]. rewrite filter_cons_False; [done|]. simpl. tauto.
Qed.

(** C1: concurrent callers are not given the fetched pair.  Let any number of
    callers enter [GetOrFetch] with the same key and fetcher on a cache that
    holds the key neither in the store nor in the registry.  Under every
    schedule the fetcher is invoked at most once, but no caller ever gets past
    the send that is to publish the fetched pair, and every caller that has
    returned has been handed the zero value with a nil error, whatever the
    fetcher produced. *)
Theorem C1_callers_never_get_fetched_pair {T} `{!GoZero T}
    (w : world T) key fetcher (n : nat) (schedule : list nat) :
  storage (cache w) !! key = None ->
  rwQueue (cache w) !! key = None ->
  let st := run_schedule schedule (callers n key fetcher, w) in
  (fetcher_calls (events_since w (snd st)) <= 1)%nat /\
  forall g, g ∈ fst st ->
    (forall r, g_pc g <> AtDeferred r) /\
    (forall r, g_pc g = Returned r -> r = (zero_value, None)).
Proof.
  intros Hsto Hreg.
  assert (Hinit : pool_inv key (callers n key fetcher, w)).
  { split; [done|]. split; [cbn [snd]; by intros v; rewrite Hreg|].
    by apply Forall_replicate. }
  cbv zeta. split.
  - pose proof (run_schedule_budget key schedule _ Hinit) as Hb.
    destruct (trace_grows schedule (callers n key fetcher, w)) as [evs Hevs].
    cbn [fst snd] in Hb, Hevs.
    rewrite pending_callers in Hb. unfold registered in Hb. rewrite Hreg in Hb.
    rewrite (events_since_app _ _ _ Hevs). rewrite Hevs in Hb.
    unfold fetcher_calls in *. rewrite filter_app, length_app in Hb.
    destruct (rwQueue (cache (snd (run_schedule schedule _))) !! key); lia.
  - intros g Hin.
    destruct (run_schedule_inv key schedule _ Hinit) as (_ & _ & Hall).
    destruct (proj1 (Forall_forall _ _) Hall g Hin) as [_ Hpc].
    split; intros r Hr; by rewrite Hr in Hpc.
Qed.

(** Two callers, scheduled so that the second one arrives while the first
    is between its claim and its backend check: the second returns the zero
    value at once, the first calls the fetcher, which yields 42, and panics. *)
Example two_callers_one_panics_one_gets_zero :
  let st := run_schedule [0; 1; 1; 0; 0; 0]%nat
              (callers 2 "user:1" Examples.fetch42, Examples.fresh) in
  g_pc <$> fst st = [Panicked "send on closed channel"; Returned (0, None)] /\
  fetcher_calls (trace (snd st)) = 1%nat /\
  Examples.fetch42 tt = (42, None).
Proof. vm_compute. done. Qed.

Lemma C1_callers_never_get_fetched_pair_witness :
  let st := run_schedule [0; 1; 1; 0; 0; 0]%nat
              (callers 2 "user:1" Examples.fetch42, Examples.fresh) in
  (fetcher_calls (events_since Examples.fresh (snd st)) <= 1)%nat /\
  Forall (fun g => (forall r, g_pc g <> AtDeferred r) /\
                   (forall r, g_pc g = Returned r -> r = (0, None))) (fst st).
Proof.
  cbv zeta. rewrite Forall_forall.
  apply (C1_callers_never_get_fetched_pair Examples.fresh "user:1" Examples.fetch42
           2 [0; 1; 1; 0; 0; 0]%nat); reflexivity.
Defined.

(** *** The step machine and [GetOrFetch] agree *)

Lemma run_alone_S {T} `{!GoZero T} fuel (g : goroutine T) (w : world T) :
  run_alone (S fuel) g w =
  run_alone fuel (fst (step_goroutine g w)) (snd (step_goroutine g w)).
Proof. cbn [run_alone]. by destruct (step_goroutine g w). Qed.

Lemma run_alone_over {T} `{!GoZero T} fuel key fetcher (p : pc T) (w : world T) :
  match p with Returned _ | Panicked _ => True | _ => False end ->
  run_alone fuel (mkGoroutine key fetcher p) w = (mkGoroutine key fetcher p, w).
Proof.
  intros Hp. induction fuel as [|fuel IH]; [done|].
  rewrite run_alone_S. by destruct p.
Qed.

Lemma run_alone_stuck {T} `{!GoZero T} fuel (g : goroutine T) (w : world T) :
  step_goroutine g w = (g, w) -> run_alone fuel g w = (g, w).
Proof.
  intros Hs. induction fuel as [|fuel IH]; [done|]. by rewrite run_alone_S, Hs.
Qed.

Lemma step_goroutine_AtEntry {T} `{!GoZero T} (w : world T) key fetcher :
  step_goroutine (mkGoroutine key fetcher AtEntry) w =
  (mkGoroutine key fetcher
     (match rwQueue (cache w) !! key with
      | Some (AnyChan c) => AtRecv c
      | _ => AtGet (length (chans w))
      end), after_claim key w).
Proof. unfold step_goroutine; cbn [g_key g_fetcher g_pc]. by rewrite step_AtEntry. Qed.

(** From its backend check on, a goroutine that runs alone ends where the
    tail of [GetOrFetch] ends. *)
Lemma run_alone_from_check {T} `{!GoZero T} (w1 : world T) key fetcher done :
  chans w1 !! done = Some true ->
  run_alone 5 (mkGoroutine key fetcher (AtGet done)) w1 =
  match get key w1 with
  | (Ret (result, None), w') => (mkGoroutine key fetcher (Returned (result, None)), w')
  | (Ret (result, Some e), w') =>
      if errors_As_MissingEntryError e
      then (mkGoroutine key fetcher (Panicked "send on closed channel"),
            log EvFetcher w')
      else (mkGoroutine key fetcher (Returned (result, Some e)), w')
  | (Panic msg, w') => (mkGoroutine key fetcher (Panicked msg), w')
  | (Blocked, w') => (mkGoroutine key fetcher (AtGet done), w1)
  end.
Proof.
  intros Hdone.
  pose proof (get_frame w1 key) as (_ & _ & Hch & _ & _).
  pose proof (get_cases w1 key) as Hc.
  rewrite run_alone_S. unfold step_goroutine; cbn [g_key g_fetcher g_pc step].
  unfold mbind, M_bind, bind.
  destruct (get key w1) as [o w2]. cbn [snd] in Hch.
  inversion Hc; subst; cbn [errors_As_MissingEntryError negb mret M_ret ret fst snd].
  - by rewrite run_alone_over.
  - rewrite run_alone_S. unfold step_goroutine; cbn [g_key g_fetcher g_pc step].
    unfold mbind, M_bind, bind, call, mret, M_ret, ret. cbn [fst snd].
    rewrite run_alone_S. unfold step_goroutine; cbn [g_key g_fetcher g_pc step].
    unfold mbind, M_bind, bind.
    rewrite send_on_done by (by rewrite <- Hdone, <- Hch). cbn [fst snd].
    by rewrite run_alone_over.
  - by rewrite run_alone_over.
Qed.

(** A goroutine that runs [GetOrFetch] alone, one shared-memory action at a
    time, ends where the function ends: same outcome, same world. *)
Lemma GetOrFetch_as_steps {T} `{!GoZero T} (w : world T) key fetcher :
  outcome_of_pc (g_pc (fst (run_alone 6 (mkGoroutine key fetcher AtEntry) w))) =
    fst (GetOrFetch key fetcher w) /\
  snd (run_alone 6 (mkGoroutine key fetcher AtEntry) w) =
    snd (GetOrFetch key fetcher w).
Proof.
  rewrite run_alone_S, step_goroutine_AtEntry. cbn [fst snd].
  destruct (rwQueue (cache w) !! key) as [[c|dyn]|] eqn:Hk.
  - rewrite (GetOrFetch_joins _ _ _ _ Hk). unfold chan_recv.
    destruct (chans (after_claim key w) !! c) as [[|]|] eqn:Hc.
    + rewrite run_alone_S. unfold step_goroutine; cbn [g_key g_fetcher g_pc step].
      unfold mbind, M_bind, bind, mret, M_ret, ret, chan_recv. rewrite Hc. cbn [fst snd].
      by rewrite run_alone_over.
    + rewrite run_alone_stuck; [done|].
      unfold step_goroutine; cbn [g_key g_fetcher g_pc step].
      unfold mbind, M_bind, bind, chan_recv. by rewrite Hc.
    + rewrite run_alone_stuck; [done|].
      unfold step_goroutine; cbn [g_key g_fetcher g_pc step].
      unfold mbind, M_bind, bind, chan_recv. by rewrite Hc.
  - assert (Hq : ~ in_flight w key) by (intros [c Hc]; congruence).
    rewrite (GetOrFetch_checks _ _ _ Hq).
    rewrite run_alone_from_check by (by apply list_lookup_middle).
    pose proof (get_cases (after_claim key w) key) as Hc.
    destruct (get key (after_claim key w)) as [o w1]. by inversion Hc; subst.
  - assert (Hq : ~ in_flight w key) by (intros [c Hc]; congruence).
    rewrite (GetOrFetch_checks _ _ _ Hq).
    rewrite run_alone_from_check by (by apply list_lookup_middle).
    pose proof (get_cases (after_claim key w) key) as Hc.
    destruct (get key (after_claim key w)) as [o w1]. by inversion Hc; subst.
Qed.

(** ** More facts about [get], [set], [delete] and [Keys] *)

(** X1: [get] returns a value with a nil error exactly when the store holds, under
    the key, a [withTTL] entry that is live at the instant the clock shows;
    the value is then the one of the entry. *)
Theorem get_succeeds_iff_live {T} `{!GoZero T} (w : world T) key v :
  fst (get key w) = Ret (v, None) <->
  exists e, storage (cache w) !! key = Some (AnyWithTTL e) /\
            live_at (clock w (ticks w)) e = true /\ v = Value e.
Proof.
  split.
  - intros Hget. destruct (storage (cache w) !! key) as [[e|dyn]|] eqn:Hk.
    + exists e. split; [done|]. unfold live_at.
      destruct (TTL e) as [ttl|] eqn:Ht.
      * destruct (Z_lt_le_dec (clock w (ticks w)) (UpdatedAt e + ttl)) as [Hlt|Hle].
        -- erewrite get_fresh in Hget by eauto. simpl in Hget.
           split; [by apply bool_decide_eq_true_2|congruence].
        -- by erewrite get_expired in Hget by eauto.
      * erewrite get_no_ttl in Hget by eauto. simpl in Hget. split; congruence.
    + by erewrite get_other in Hget by eauto.
    + by rewrite get_absent in Hget.
  - intros (e & Hk & Hlive & ->). by apply get_live.
Qed.

(** X2: Whenever [get] reports an error, the value it returns is the zero value
    and the error is [MissingEntryError] or [FailedToCastEntryError] (with no
    cause) for the requested key; [get] never panics and never blocks. *)
Theorem get_error_is_about_the_key {T} `{!GoZero T} (w : world T) key :
  exists v err, fst (get key w) = Ret (v, err) /\
    (err = None \/
     v = zero_value /\
     (err = Some (MissingEntryError key) \/
      err = Some (FailedToCastEntryError key None))).
Proof.
  pose proof (get_cases w key) as Hc. destruct (get key w) as [o w1].
  inversion Hc; subst; simpl; eexists _, _; split; try done; auto.
Qed.

(** X3: [get] touches nothing but the entry it is asked for: the entries of the
    other keys, the registry, the default TTL, the channels and the trace are
    as before, and when it succeeds the whole store is as before. *)
Theorem get_touches_only_its_key {T} `{!GoZero T} (w : world T) key :
  (forall k, k <> key ->
     storage (cache (snd (get key w))) !! k = storage (cache w) !! k) /\
  (forall v, fst (get key w) = Ret (v, None) ->
     storage (cache (snd (get key w))) = storage (cache w)) /\
  rwQueue (cache (snd (get key w))) = rwQueue (cache w) /\
  defaultTTL (cache (snd (get key w))) = defaultTTL (cache w) /\
  chans (snd (get key w)) = chans w /\
  trace (snd (get key w)) = trace w.
Proof.
  pose proof (get_frame w key) as (Hq & Hd & Hch & _ & Htr).
  pose proof (get_cases w key) as Hc.
  destruct (get key w) as [o w1]. simpl in *.
  repeat split; try done.
  - intros k Hne. inversion Hc as [v w' Hs|w' Hs|w' Hs]; subst; rewrite Hs;
      [done|by rewrite lookup_delete_ne..].
  - intros v ->. by inversion Hc.
Qed.

(** X4: A failed [get] leaves nothing under the key: any [get] of the same key
    that finds the slot as the failed one left it reports
    [MissingEntryError], at whatever instant.  In particular
    [FailedToCastEntryError] is reported for a corrupt slot once only. *)
Theorem failed_get_leaves_key_missing {T} `{!GoZero T} (w w2 : world T) key v e :
  fst (get key w) = Ret (v, Some e) ->
  storage (cache w2) !! key = storage (cache (snd (get key w))) !! key ->
  get key w2 = (Ret (zero_value, Some (MissingEntryError key)), w2).
Proof.
  intros Hget Hk. apply get_absent. rewrite Hk.
  pose proof (get_cases w key) as Hc. destruct (get key w) as [o w1].
  simpl in *. subst o. inversion Hc as [|w' Hs|w' Hs]; subst;
    rewrite Hs; apply lookup_delete_eq.
Qed.

Lemma failed_get_leaves_key_missing_witness :
  get "user:1" (snd (get "user:1" Examples.corrupt)) =
  (Ret (0, Some (MissingEntryError "user:1")), snd (get "user:1" Examples.corrupt)).
Proof.
  apply (failed_get_leaves_key_missing Examples.corrupt _ "user:1" 0
           (FailedToCastEntryError "user:1" None)); reflexivity.
Defined.

(** X5: An entry written by [Set] on a cache with no default TTL never expires:
    as long as the slot holds what [Set] wrote, [get] returns the value,
    whatever the clock shows, and changes nothing. *)
Theorem entry_without_ttl_never_expires {T} `{!GoZero T} (w w' : world T) key value :
  defaultTTL (cache w) = None ->
  storage (cache w') !! key = storage (cache (snd (Set_ key value w))) !! key ->
  get key w' = (Ret (value, None), w').
Proof.
  intros Hd Hk.
  change (snd (Set_ key value w)) with (snd (set key value None w)) in Hk.
  rewrite set_storage, lookup_insert_eq, Hd in Hk.
  by erewrite get_no_ttl by eauto.
Qed.

Lemma entry_without_ttl_never_expires_witness :
  get "user:1" (with_tick (with_tick Examples.pinned)) =
  (Ret (7, None), with_tick (with_tick Examples.pinned)).
Proof.
  apply (entry_without_ttl_never_expires Examples.fresh _ "user:1" 7); reflexivity.
Defined.

(** X6: [Delete] never fails.  After it a [get] of the key reports
    [MissingEntryError]; the entries of the other keys are untouched, and
    deleting a key that is not there changes nothing in the store. *)
Theorem Delete_then_get_is_missing {T} `{!GoZero T} (w : world T) key :
  fst (Delete key w) = Ret None /\
  get key (snd (Delete key w)) =
    (Ret (zero_value, Some (MissingEntryError key)), snd (Delete key w)) /\
  (forall k, k <> key ->
     storage (cache (snd (Delete key w))) !! k = storage (cache w) !! k) /\
  (storage (cache w) !! key = None ->
     storage (cache (snd (Delete key w))) = storage (cache w)).
Proof.
  split; [done|]. split; [|split].
  - apply get_absent. simpl. apply lookup_delete_eq.
  - intros k Hne. simpl. by apply lookup_delete_ne.
  - intros Hk. simpl. by apply delete_id.
Qed.

Lemma Keys_fold {A} (l : list (string * A)) (acc : list string) :
  fold_left (fun keys kv => keys ++ [kv.1]) l acc = acc ++ l.*1.
Proof.
  revert acc. induction l as [|kv l IH]; intros acc; simpl.
  - by rewrite app_nil_r.
  - by rewrite IH, <- app_assoc.
Qed.

Lemma Keys_eq {T} (w : world T) :
  Keys w = (Ret ((map_to_list (storage (cache w))).*1, None), w).
Proof. unfold Keys. by rewrite Keys_fold. Qed.

Lemma elem_of_Keys {T} (w : world T) k :
  k ∈ (map_to_list (storage (cache w))).*1 <-> is_Some (storage (cache w) !! k).
Proof.
  rewrite list_elem_of_fmap. split.
  - intros ([k' v] & -> & Hin). apply elem_of_map_to_list in Hin. by exists v.
  - intros [v Hv]. exists (k, v). split; [done|]. by apply elem_of_map_to_list.
Qed.

(** X7: [Keys] never fails and changes nothing.  It lists every key that has a
    slot in the store exactly once, whether the entry in the slot is live,
    expired or of a foreign type. *)
Theorem Keys_lists_every_slot_once {T} (w : world T) :
  exists ks, Keys w = (Ret (ks, None), w) /\
    NoDup ks /\
    forall k, k ∈ ks <-> is_Some (storage (cache w) !! k).
Proof.
  exists ((map_to_list (storage (cache w))).*1). split; [apply Keys_eq|].
  split; [apply NoDup_fst_map_to_list|]. apply elem_of_Keys.
Qed.

(** X8: Expiry is lazy: [Keys] goes on listing a key whose entry has expired, and
    stops doing so once a [get] of that key has failed. *)
Theorem Keys_lists_expired_key_until_get {T} `{!GoZero T} (w : world T) key e ks ks' :
  storage (cache w) !! key = Some (AnyWithTTL e) ->
  live_at (clock w (ticks w)) e = false ->
  fst (Keys w) = Ret (ks, None) ->
  fst (Keys (snd (get key w))) = Ret (ks', None) ->
  key ∈ ks /\
  fst (get key w) = Ret (zero_value, Some (MissingEntryError key)) /\
  key ∉ ks'.
Proof.
  intros Hk Hlive Hks Hks'. rewrite Keys_eq in Hks, Hks'. simpl in Hks, Hks'.
  injection Hks as <-. injection Hks' as <-.
  unfold live_at in Hlive. destruct (TTL e) as [ttl|] eqn:Ht; [|done].
  apply bool_decide_eq_false_1 in Hlive.
  rewrite (get_expired w key e ttl Hk Ht) by lia.
  split; [|split; [done|]].
  - apply elem_of_Keys. by rewrite Hk.
  - intros Hin.
    apply (elem_of_Keys (with_storage (delete key) (with_tick w))) in Hin.
    simpl in Hin. rewrite lookup_delete_eq in Hin. by destruct Hin.
Qed.

Lemma Keys_lists_expired_key_until_get_witness :
  "user:1" ∈ ["user:1"] /\
  fst (get "user:1" Examples.cached_expired) =
    Ret (0, Some (MissingEntryError "user:1")) /\
  "user:1" ∉ ([] : list string).
Proof.
  apply (Keys_lists_expired_key_until_get Examples.cached_expired "user:1"
           (mkWithTTL 0 (Some 100) 7)); reflexivity.
Defined.

(** X9: [Keys] follows [Set] and [Delete]: a key that has just been set is
    listed, a key that has just been deleted is not. *)
Theorem Keys_after_Set_and_Delete {T} `{!GoZero T} (w : world T) key value ks ks' :
  fst (Keys (snd (Set_ key value w))) = Ret (ks, None) ->
  fst (Keys (snd (Delete key w))) = Ret (ks', None) ->
  key ∈ ks /\ key ∉ ks'.
Proof.
  intros Hks Hks'. rewrite Keys_eq in Hks, Hks'. simpl in Hks, Hks'.
  injection Hks as <-. injection Hks' as <-. split.
  - apply (elem_of_Keys (snd (Set_ key value w))). simpl.
    rewrite lookup_insert_eq. by eexists.
  - intros Hin. apply (elem_of_Keys (snd (Delete key w))) in Hin.
    simpl in Hin. rewrite lookup_delete_eq in Hin. by destruct Hin.
Qed.

Lemma Keys_after_Set_and_Delete_witness :
  "user:1" ∈ ["user:1"] /\ "user:1" ∉ ([] : list string).
Proof.
  apply (Keys_after_Set_and_Delete Examples.fresh "user:1" 7); reflexivity.
Defined.

(** X10: [Clear] empties the store and the wait registry and keeps the default
    TTL: afterwards [Keys] lists nothing, every [get] reports
    [MissingEntryError], and no key has a completion signal left, so that a
    caller of [GetOrFetch] is back at the backend check. *)
Theorem Clear_empties_store_and_registry {T} `{!GoZero T} (w : world T) :
  fst (Clear w) = Ret tt /\
  Keys (snd (Clear w)) = (Ret ([], None), snd (Clear w)) /\
  (forall key, get key (snd (Clear w)) =
     (Ret (zero_value, Some (MissingEntryError key)), snd (Clear w))) /\
  (forall key, ~ in_flight (snd (Clear w)) key) /\
  defaultTTL (cache (snd (Clear w))) = defaultTTL (cache w).
Proof.
  split; [done|]. split; [|split; [|split]].
  - rewrite Keys_eq. simpl. by rewrite map_to_list_empty.
  - intros key. by apply get_absent.
  - intros key [c Hc]. simpl in Hc. by rewrite lookup_empty in Hc.
  - done.
Qed.

(** ** More facts about [GetOrFetch] *)

(** The world a call of [GetOrFetch] leaves, whatever its outcome. *)
Lemma GetOrFetch_final {T} `{!GoZero T} (w : world T) key fetcher :
  rwQueue (cache (snd (GetOrFetch key fetcher w))) = rwQueue (cache (after_claim key w)) /\
  chans (snd (GetOrFetch key fetcher w)) = chans w ++ [true] /\
  defaultTTL (cache (snd (GetOrFetch key fetcher w))) = defaultTTL (cache w) /\
  (storage (cache (snd (GetOrFetch key fetcher w))) = storage (cache w) \/
   storage (cache (snd (GetOrFetch key fetcher w))) = delete key (storage (cache w))).
Proof.
  destruct (rwQueue (cache w) !! key) as [[c|dyn]|] eqn:Hk.
  - rewrite (GetOrFetch_joins _ _ _ _ Hk). unfold chan_recv.
    destruct (chans (after_claim key w) !! c) as [[|]|]; simpl; auto.
  - assert (Hq : ~ in_flight w key) by (intros [c Hc]; congruence).
    destruct (GetOrFetch_no_join w key fetcher Hq)
      as (r & w1 & Hg & _ & _ & Hrq & Hch & _ & ->).
    pose proof (get_cases (after_claim key w) key) as Hc.
    pose proof (get_frame (after_claim key w) key) as (_ & Hd & _).
    rewrite Hg in Hc, Hd. simpl in Hd.
    destruct r as [v [e|]]; simpl; [destruct (errors_As_MissingEntryError e)|];
      simpl; (repeat split; try done); inversion Hc; subst; auto.
  - assert (Hq : ~ in_flight w key) by (intros [c Hc]; congruence).
    destruct (GetOrFetch_no_join w key fetcher Hq)
      as (r & w1 & Hg & _ & _ & Hrq & Hch & _ & ->).
    pose proof (get_cases (after_claim key w) key) as Hc.
    pose proof (get_frame (after_claim key w) key) as (_ & Hd & _).
    rewrite Hg in Hc, Hd. simpl in Hd.
    destruct r as [v [e|]]; simpl; [destruct (errors_As_MissingEntryError e)|];
      simpl; (repeat split; try done); inversion Hc; subst; auto.
Qed.

(** X11: What the fetcher returns is never used: two calls of [GetOrFetch] that
    differ in the fetcher only have the same outcome and leave the same
    world. *)
Theorem GetOrFetch_ignores_fetcher_result {T} `{!GoZero T} (w : world T) key
    (fetcher fetcher' : unit -> T * option error) :
  GetOrFetch key fetcher w = GetOrFetch key fetcher' w.
Proof.
  destruct (rwQueue (cache w) !! key) as [[c|dyn]|] eqn:Hk.
  - by rewrite !(GetOrFetch_joins _ _ _ _ Hk).
  - assert (Hq : ~ in_flight w key) by (intros [c Hc]; congruence).
    by rewrite !(GetOrFetch_checks _ _ _ Hq).
  - assert (Hq : ~ in_flight w key) by (intros [c Hc]; congruence).
    by rewrite !(GetOrFetch_checks _ _ _ Hq).
Qed.

(** X12: [GetOrFetch] never writes to the store: under every key the store holds
    afterwards what it held before, except that the slot of the requested key
    may have been emptied; the default TTL is as before. *)
Theorem GetOrFetch_never_stores {T} `{!GoZero T} (w : world T) key fetcher :
  (forall k,
     storage (cache (snd (GetOrFetch key fetcher w))) !! k = storage (cache w) !! k \/
     k = key /\ storage (cache (snd (GetOrFetch key fetcher w))) !! k = None) /\
  defaultTTL (cache (snd (GetOrFetch key fetcher w))) = defaultTTL (cache w).
Proof.
  destruct (GetOrFetch_final w key fetcher) as (_ & _ & Hd & [Hs|Hs]);
    (split; [|done]); intros k; rewrite Hs; [by left|].
  destruct (decide (k = key)) as [->|Hne].
  - right. split; [done|]. apply lookup_delete_eq.
  - left. by apply lookup_delete_ne.
Qed.

Lemma GetOrFetch_registry_grows {T} `{!GoZero T} (w : world T) key fetcher :
  (forall k v, rwQueue (cache w) !! k = Some v ->
     rwQueue (cache (snd (GetOrFetch key fetcher w))) !! k = Some v) /\
  is_Some (rwQueue (cache (snd (GetOrFetch key fetcher w))) !! key).
Proof.
  destruct (GetOrFetch_final w key fetcher) as (-> & _). simpl. split.
  - intros k v Hk. destruct (rwQueue (cache w) !! key) eqn:Hkey; [done|].
    rewrite lookup_insert_ne; [done|]. intros <-. congruence.
  - destruct (rwQueue (cache w) !! key) eqn:Hkey; [by rewrite Hkey|].
    rewrite lookup_insert_eq. by eexists.
Qed.

(** X13: [GetOrFetch] never removes or replaces an entry of the wait registry:
    what was registered under any key still is, and the requested key is
    registered when the call is over, whatever its outcome. *)
Theorem GetOrFetch_keeps_registry_entries {T} `{!GoZero T} (w : world T) key fetcher :
  (forall k v, rwQueue (cache w) !! k = Some v ->
     rwQueue (cache (snd (GetOrFetch key fetcher w))) !! k = Some v) /\
  is_Some (rwQueue (cache (snd (GetOrFetch key fetcher w))) !! key).
Proof. apply GetOrFetch_registry_grows. Qed.

(** ** Facts about clients of the exported methods *)

Lemma set_frame {T} `{!GoZero T} (w : world T) key value ttl :
  fst (set key value ttl w) = Ret tt /\
  rwQueue (cache (snd (set key value ttl w))) = rwQueue (cache w) /\
  defaultTTL (cache (snd (set key value ttl w))) = defaultTTL (cache w) /\
  chans (snd (set key value ttl w)) = chans w /\
  clock (snd (set key value ttl w)) = clock w /\
  ticks (snd (set key value ttl w)) = S (ticks w) /\
  trace (snd (set key value ttl w)) = trace w.
Proof. done. Qed.

Lemma SetMulti_loop_frame {T} `{!GoZero T} kvs ttl (w : world T) :
  fst (SetMulti_loop kvs ttl w) = Ret tt /\
  rwQueue (cache (snd (SetMulti_loop kvs ttl w))) = rwQueue (cache w) /\
  defaultTTL (cache (snd (SetMulti_loop kvs ttl w))) = defaultTTL (cache w) /\
  chans (snd (SetMulti_loop kvs ttl w)) = chans w /\
  clock (snd (SetMulti_loop kvs ttl w)) = clock w /\
  ticks (snd (SetMulti_loop kvs ttl w)) = (ticks w + length kvs)%nat /\
  trace (snd (SetMulti_loop kvs ttl w)) = trace w.
Proof.
  revert w. induction kvs as [|kv kvs IH]; intros w.
  - simpl. repeat split; (done || lia).
  - cbn [SetMulti_loop]. unfold mbind, M_bind, bind.
    destruct (set_frame w (cache.Key kv) (cache.Value kv) ttl)
      as (Hr & Hq & Hd & Hch & Hcl & Hti & Htr).
    destruct (set (cache.Key kv) (cache.Value kv) ttl w) as [o w1].
    simpl in Hr, Hq, Hd, Hch, Hcl, Hti, Htr. subst o.
    destruct (IH w1) as (Hr' & Hq' & Hd' & Hch' & Hcl' & Hti' & Htr').
    rewrite Hq', Hd', Hch', Hcl', Hti', Htr', Hti. simpl.
    repeat split; (done || lia).
Qed.

Lemma GetMulti_loop_frame {T} `{!GoZero T} keys res (w : world T) :
  rwQueue (cache (snd (GetMulti_loop keys res w))) = rwQueue (cache w) /\
  defaultTTL (cache (snd (GetMulti_loop keys res w))) = defaultTTL (cache w) /\
  chans (snd (GetMulti_loop keys res w)) = chans w /\
  trace (snd (GetMulti_loop keys res w)) = trace w /\
  (forall k v, storage (cache (snd (GetMulti_loop keys res w))) !! k = Some v ->
               storage (cache w) !! k = Some v).
Proof.
  revert res w. induction keys as [|key keys IH]; intros res w; [done|].
  cbn [GetMulti_loop]. unfold mbind, M_bind, bind.
  pose proof (get_frame w key) as (Hq & Hd & Hch & _ & Htr).
  pose proof (get_cases w key) as Hc.
  destruct (get key w) as [o w1]. simpl in Hq, Hd, Hch, Htr.
  assert (Hsub : forall k v, storage (cache w1) !! k = Some v ->
                             storage (cache w) !! k = Some v).
  { intros k v. inversion Hc as [v0 w' Hs|w' Hs|w' Hs]; subst; rewrite Hs;
      [done|by intros [_ ?]%lookup_delete_Some..]. }
  inversion Hc; subst; simpl;
    match goal with
    | |- context [GetMulti_loop keys ?r w1] =>
        destruct (IH r w1) as (Hq' & Hd' & Hch' & Htr' & Hsub')
    end;
    rewrite Hq', Hd', Hch', Htr', Hq, Hd, Hch, Htr; repeat split; auto.
Qed.

Lemma SetMulti_loop_typed {T} `{!GoZero T} kvs ttl (w : world T) :
  (forall k v, storage (cache w) !! k = Some v -> exists e, v = AnyWithTTL e) ->
  forall k v, storage (cache (snd (SetMulti_loop kvs ttl w))) !! k = Some v ->
              exists e, v = AnyWithTTL e.
Proof.
  revert w. induction kvs as [|kv kvs IH]; intros w Hty; [done|].
  cbn [SetMulti_loop]. unfold mbind, M_bind, bind.
  pose proof (set_storage w (cache.Key kv) (cache.Value kv) ttl) as Hs.
  destruct (set_frame w (cache.Key kv) (cache.Value kv) ttl) as (Hr & _).
  destruct (set (cache.Key kv) (cache.Value kv) ttl w) as [o w1].
  simpl in Hs, Hr. subst o. apply IH. intros k v. rewrite Hs.
  destruct (decide (cache.Key kv = k)) as [->|Hne].
  - rewrite lookup_insert_eq. intros [= <-]. by eexists.
  - rewrite lookup_insert_ne by done. apply Hty.
Qed.

(** Every call other than [Clear] keeps the entries of the wait registry. *)
Lemma run_call_keeps_registry {T} `{!GoZero T} (c : method_call T) (w : world T) :
  is_Clear c = false ->
  forall k v, rwQueue (cache w) !! k = Some v ->
              rwQueue (cache (run_call c w)) !! k = Some v.
Proof.
  intros Hc k v Hk. destruct c; try done; cbn [run_call].
  - unfold Get. by rewrite (proj1 (get_frame w key)).
  - unfold GetMulti, mbind, M_bind, bind.
    pose proof (GetMulti_loop_frame keys [] w) as (Hq & _).
    destruct (GetMulti_loop keys [] w) as [[r|m|] w1]; simpl in *; by rewrite Hq.
  - unfold SetMulti, mbind, M_bind, bind.
    pose proof (SetMulti_loop_frame kvs None w) as (_ & Hq & _).
    destruct (SetMulti_loop kvs None w) as [[r|m|] w1]; simpl in *; by rewrite Hq.
  - unfold SetMultiWithTTL, mbind, M_bind, bind.
    pose proof (SetMulti_loop_frame kvs (Some ttl) w) as (_ & Hq & _).
    destruct (SetMulti_loop kvs (Some ttl) w) as [[r|m|] w1]; simpl in *; by rewrite Hq.
  - by apply GetOrFetch_registry_grows.
Qed.

Lemma run_call_chans {T} `{!GoZero T} (c : method_call T) (w : world T) :
  forall i, chans w !! i = Some true -> chans (run_call c w) !! i = Some true.
Proof.
  intros i Hi. destruct c; try done; cbn [run_call].
  - unfold Get. by rewrite (proj1 (proj2 (proj2 (get_frame w key)))).
  - unfold GetMulti, mbind, M_bind, bind.
    pose proof (GetMulti_loop_frame keys [] w) as (_ & _ & Hch & _).
    destruct (GetMulti_loop keys [] w) as [[r|m|] w1]; simpl in *; by rewrite Hch.
  - unfold SetMulti, mbind, M_bind, bind.
    pose proof (SetMulti_loop_frame kvs None w) as (_ & _ & _ & Hch & _).
    destruct (SetMulti_loop kvs None w) as [[r|m|] w1]; simpl in *; by rewrite Hch.
  - unfold SetMultiWithTTL, mbind, M_bind, bind.
    pose proof (SetMulti_loop_frame kvs (Some ttl) w) as (_ & _ & _ & Hch & _).
    destruct (SetMulti_loop kvs (Some ttl) w) as [[r|m|] w1]; simpl in *; by rewrite Hch.
  - destruct (GetOrFetch_final w key fetcher) as (_ & -> & _).
    by apply lookup_app_l_Some.
Qed.

Lemma run_call_store_typed {T} `{!GoZero T} (c : method_call T) (w : world T) :
  (forall k v, storage (cache w) !! k = Some v -> exists e, v = AnyWithTTL e) ->
  forall k v, storage (cache (run_call c w)) !! k = Some v -> exists e, v = AnyWithTTL e.
Proof.
  intros Hty k v. destruct c; cbn [run_call]; try apply Hty.
  - unfold Get. pose proof (get_cases w key) as Hc.
    destruct (get key w) as [o w1]. simpl.
    inversion Hc as [v0 w' Hs|w' Hs|w' Hs]; subst; rewrite Hs;
      [apply Hty|intros [_ ?]%lookup_delete_Some; by eapply Hty..].
  - simpl. destruct (decide (key = k)) as [->|Hne].
    + rewrite lookup_insert_eq. intros [= <-]. by eexists.
    + rewrite lookup_insert_ne by done. apply Hty.
  - simpl. destruct (decide (key = k)) as [->|Hne].
    + rewrite lookup_insert_eq. intros [= <-]. by eexists.
    + rewrite lookup_insert_ne by done. apply Hty.
  - simpl. intros [_ ?]%lookup_delete_Some. by eapply Hty.
  - unfold GetMulti, mbind, M_bind, bind.
    pose proof (GetMulti_loop_frame keys [] w) as (_ & _ & _ & _ & Hsub).
    destruct (GetMulti_loop keys [] w) as [[r|m|] w1]; simpl in *;
      intros Hk; eapply Hty; by apply Hsub.
  - unfold SetMulti, mbind, M_bind, bind.
    pose proof (SetMulti_loop_typed kvs None w Hty k v) as Hs.
    by destruct (SetMulti_loop kvs None w) as [[r|m|] w1].
  - unfold SetMultiWithTTL, mbind, M_bind, bind.
    pose proof (SetMulti_loop_typed kvs (Some ttl) w Hty k v) as Hs.
    by destruct (SetMulti_loop kvs (Some ttl) w) as [[r|m|] w1].
  - destruct (GetOrFetch_final w key fetcher) as (_ & _ & _ & [-> | ->]);
      [apply Hty|intros [_ ?]%lookup_delete_Some; by eapply Hty].
  - simpl. by rewrite lookup_empty.
Qed.

Lemma run_call_registry_closed {T} `{!GoZero T} (c : method_call T) (w : world T) :
  (forall k v, rwQueue (cache w) !! k = Some v ->
     exists c, v = AnyChan c /\ chans w !! c = Some true) ->
  forall k v, rwQueue (cache (run_call c w)) !! k = Some v ->
    exists c0, v = AnyChan c0 /\ chans (run_call c w) !! c0 = Some true.
Proof.
  intros Hreg k v. destruct c; cbn [run_call]; try apply Hreg.
  - unfold Get. pose proof (get_frame w key) as (-> & _ & -> & _). apply Hreg.
  - unfold GetMulti, mbind, M_bind, bind.
    pose proof (GetMulti_loop_frame keys [] w) as (Hq & _ & Hch & _).
    destruct (GetMulti_loop keys [] w) as [[r|m|] w1]; simpl in *;
      rewrite Hq, Hch; apply Hreg.
  - unfold SetMulti, mbind, M_bind, bind.
    pose proof (SetMulti_loop_frame kvs None w) as (_ & Hq & _ & Hch & _).
    destruct (SetMulti_loop kvs None w) as [[r|m|] w1]; simpl in *;
      rewrite Hq, Hch; apply Hreg.
  - unfold SetMultiWithTTL, mbind, M_bind, bind.
    pose proof (SetMulti_loop_frame kvs (Some ttl) w) as (_ & Hq & _ & Hch & _).
    destruct (SetMulti_loop kvs (Some ttl) w) as [[r|m|] w1]; simpl in *;
      rewrite Hq, Hch; apply Hreg.
  - destruct (GetOrFetch_final w key fetcher) as (-> & -> & _). simpl.
    destruct (rwQueue (cache w) !! key) as [v0|] eqn:Hkey.
    + intros Hk. destruct (Hreg k v Hk) as (c0 & -> & Hc0).
      exists c0. split; [done|]. by apply lookup_app_l_Some.
    + destruct (decide (key = k)) as [->|Hne].
      * rewrite lookup_insert_eq. intros [= <-]. eexists. split; [done|].
        by apply list_lookup_middle.
      * rewrite lookup_insert_ne by done. intros Hk.
        destruct (Hreg k v Hk) as (c0 & -> & Hc0).
        exists c0. split; [done|]. by apply lookup_app_l_Some.
  - simpl. by rewrite lookup_empty.
Qed.

Lemma run_calls_well_formed {T} `{!GoZero T} (calls : list (method_call T)) (w : world T) :
  well_formed w -> well_formed (run_calls calls w).
Proof.
  revert w. induction calls as [|c calls IH]; intros w Hwf; [done|].
  apply IH. destruct Hwf as [Hty Hreg]. split.
  - by apply run_call_store_typed.
  - by apply run_call_registry_closed.
Qed.

Lemma new_world_well_formed {T} (clk : nat -> Z) : well_formed (new_world (T:=T) clk).
Proof. split; intros k v; simpl; by rewrite lookup_empty. Qed.

(** X14: Whatever calls of exported methods a client makes on a cache built by
    [NewCache], the cache stays well formed: the store holds [withTTL]
    entries only, and the wait registry holds closed channels only. *)
Theorem clients_keep_cache_well_formed {T} `{!GoZero T} (clk : nat -> Z)
    (calls : list (method_call T)) :
  well_formed (run_calls calls (new_world clk)).
Proof. apply run_calls_well_formed, new_world_well_formed. Qed.

(** X15: [FailedToCastEntryError] is out of reach of a client: on a cache that
    only exported methods have worked on, every error [Get] returns is the
    [MissingEntryError] of the requested key. *)
Theorem Get_error_of_client_is_missing {T} `{!GoZero T} (clk : nat -> Z)
    (calls : list (method_call T)) key v e :
  fst (Get key (run_calls calls (new_world clk))) = Ret (v, Some e) ->
  v = zero_value /\ e = MissingEntryError key.
Proof.
  destruct (run_calls_well_formed calls _ (new_world_well_formed clk)) as [Hty _].
  set (w := run_calls calls (new_world clk)) in *. unfold Get.
  destruct (storage (cache w) !! key) as [[en|dyn]|] eqn:Hk.
  - destruct (TTL en) as [ttl|] eqn:Ht.
    + destruct (Z_lt_le_dec (clock w (ticks w)) (UpdatedAt en + ttl)).
      * by rewrite (get_fresh w key en ttl Hk Ht).
      * rewrite (get_expired w key en ttl Hk Ht) by done. simpl. by intros [= <- <-].
    + by rewrite (get_no_ttl w key en Hk Ht).
  - by destruct (Hty _ _ Hk) as [e0 He0].
  - rewrite (get_absent _ _ Hk). simpl. by intros [= <- <-].
Qed.

Lemma Get_error_of_client_is_missing_witness :
  (0 : Z) = zero_value /\ MissingEntryError "user:1" = MissingEntryError "user:1".
Proof.
  apply (Get_error_of_client_is_missing Examples.clock60 [] "user:1" 0
           (MissingEntryError "user:1")).
  reflexivity.
Defined.

Lemma run_calls_keep_registry {T} `{!GoZero T} (calls : list (method_call T)) (w : world T) :
  Forall (fun c => is_Clear c = false) calls ->
  forall k v, rwQueue (cache w) !! k = Some v ->
              rwQueue (cache (run_calls calls w)) !! k = Some v.
Proof.
  revert w. induction calls as [|c calls IH]; intros w Hall k v Hk; [done|].
  inversion Hall; subst. apply IH; [done|]. by apply run_call_keeps_registry.
Qed.

(** X16: Only [Clear] removes entries of the wait registry: through any calls of
    the other exported methods, whatever is registered under a key stays
    registered, unchanged. *)
Theorem only_Clear_removes_registry_entries {T} `{!GoZero T}
    (calls : list (method_call T)) (w : world T) k v :
  Forall (fun c => is_Clear c = false) calls ->
  rwQueue (cache w) !! k = Some v ->
  rwQueue (cache (run_calls calls w)) !! k = Some v.
Proof. intros Hall Hk. by apply run_calls_keep_registry. Qed.

Lemma only_Clear_removes_registry_entries_witness :
  rwQueue (cache (run_calls [CallSet "user:1" 7; CallDelete "user:1"]
                    Examples.pinned_claimed)) !! "user:1" = Some (AnyChan 0%nat).
Proof.
  apply (only_Clear_removes_registry_entries
           [CallSet "user:1" 7; CallDelete "user:1"] Examples.pinned_claimed).
  - by repeat constructor.
  - reflexivity.
Defined.

(** X17: On a well-formed cache [GetOrFetch] never blocks and never returns an
    error: it returns some value with a nil error, or it panics in its send. *)
Theorem GetOrFetch_returns_nil_error_or_panics {T} `{!GoZero T} (w : world T) key fetcher :
  well_formed w ->
  (exists v, fst (GetOrFetch key fetcher w) = Ret (v, None)) \/
  fst (GetOrFetch key fetcher w) = Panic "send on closed channel".
Proof.
  intros [Hty Hreg]. destruct (rwQueue (cache w) !! key) as [v0|] eqn:Hk.
  - destruct (Hreg _ _ Hk) as (c & -> & Hc).
    rewrite (stale_signal_answers_zero _ _ _ _ Hk Hc). left. by eexists.
  - assert (Hq : ~ in_flight w key) by (intros [c Hc]; congruence).
    destruct (GetOrFetch_no_join w key fetcher Hq)
      as (r & w1 & _ & Hr & _ & _ & _ & _ & ->).
    destruct (storage (cache w) !! key) as [[en|dyn]|] eqn:Hs.
    + destruct (TTL en) as [ttl|] eqn:Ht.
      * destruct (Z_lt_le_dec (clock w (ticks w)) (UpdatedAt en + ttl)).
        -- rewrite (get_fresh w key en ttl Hs Ht) in Hr by done.
           injection Hr as <-. left. by eexists.
        -- rewrite (get_expired w key en ttl Hs Ht) in Hr by done.
           injection Hr as <-. by right.
      * rewrite (get_no_ttl w key en Hs Ht) in Hr. injection Hr as <-.
        left. by eexists.
    + by destruct (Hty _ _ Hs) as [e0 He0].
    + rewrite (get_absent _ _ Hs) in Hr. injection Hr as <-. by right.
Qed.

Lemma GetOrFetch_returns_nil_error_or_panics_witness :
  (exists v, fst (GetOrFetch "user:1" Examples.fetch42 Examples.fresh) = Ret (v, None)) \/
  fst (GetOrFetch "user:1" Examples.fetch42 Examples.fresh) =
    Panic "send on closed channel".
Proof.
  apply (GetOrFetch_returns_nil_error_or_panics Examples.fresh "user:1" Examples.fetch42).
  split; intros k v; simpl; by rewrite lookup_empty.
Defined.

(** X18: [GetOrFetch] serves a key once.  After a client has called [GetOrFetch]
    for a key, every later [GetOrFetch] for that key returns the zero value
    and a nil error, without a look at the store or a call of the fetcher,
    whatever calls other than [Clear] the client has made in between, [Set]
    of that key included. *)
Theorem GetOrFetch_serves_a_key_once {T} `{!GoZero T} (clk : nat -> Z)
    (calls1 calls2 : list (method_call T)) key fetcher fetcher' :
  Forall (fun c => is_Clear c = false) calls2 ->
  let w := run_calls (calls1 ++ CallGetOrFetch key fetcher :: calls2) (new_world clk) in
  GetOrFetch key fetcher' w = (Ret (zero_value, None), after_claim key w).
Proof.
  intros Hall w.
  assert (Hwf : well_formed w)
    by apply run_calls_well_formed, new_world_well_formed.
  assert (Hk : is_Some (rwQueue (cache w) !! key)).
  { unfold w, run_calls. rewrite fold_left_app. cbn [fold_left].
    destruct (GetOrFetch_registry_grows (run_calls calls1 (new_world clk)) key fetcher)
      as [_ [v Hv]].
    exists v. by apply run_calls_keep_registry. }
  destruct Hk as [v Hk]. destruct Hwf as [_ Hreg].
  destruct (Hreg _ _ Hk) as (c & -> & Hc).
  by apply stale_signal_answers_zero with (c := c).
Qed.

Lemma GetOrFetch_serves_a_key_once_witness :
  let w := run_calls ([] ++ CallGetOrFetch "user:1" Examples.fetch42 :: [CallSet "user:1" 7])
             (new_world Examples.clock60) in
  GetOrFetch "user:1" Examples.fetch42 w = (Ret (0, None), after_claim "user:1" w).
Proof.
  apply (GetOrFetch_serves_a_key_once Examples.clock60 [] [CallSet "user:1" 7]
           "user:1" Examples.fetch42 Examples.fetch42).
  by repeat constructor.
Defined.

(** ** Facts about [SetMulti] and [GetMulti] *)

Lemma SetMulti_loop_lookup {T} `{!GoZero T} kvs ttl (w : world T) k :
  match last (filter (fun x => cache.Key x = k) kvs) with
  | Some x =>
      exists i, (i < length kvs)%nat /\
        storage (cache (snd (SetMulti_loop kvs ttl w))) !! k =
        Some (AnyWithTTL
                (mkWithTTL (clock w (ticks w + i)%nat)
                   (match ttl with Some _ => ttl | None => defaultTTL (cache w) end)
                   (cache.Value x)))
  | None =>
      storage (cache (snd (SetMulti_loop kvs ttl w))) !! k = storage (cache w) !! k
  end.
Proof.
  revert w. induction kvs as [|kv kvs IH]; intros w; [done|].
  cbn [SetMulti_loop]. unfold mbind, M_bind, bind.
  pose proof (set_storage w (cache.Key kv) (cache.Value kv) ttl) as Hs.
  destruct (set_frame w (cache.Key kv) (cache.Value kv) ttl)
    as (Hr & _ & Hd & _ & Hcl & Hti & _).
  destruct (set (cache.Key kv) (cache.Value kv) ttl w) as [o w1].
  simpl in Hs, Hr, Hd, Hcl, Hti. subst o.
  specialize (IH w1). rewrite Hd, Hcl, Hti in IH.
  rewrite filter_cons. destruct (decide (cache.Key kv = k)) as [Heq|Hne].
  - rewrite last_cons.
    destruct (last (filter (fun x => cache.Key x = k) kvs)) as [x|].
    + destruct IH as (i & Hi & IH). exists (S i). split; [simpl; lia|].
      by replace (ticks w + S i)%nat with (S (ticks w) + i)%nat by lia.
    + exists 0%nat. split; [simpl; lia|].
      rewrite IH, Hs, Heq, lookup_insert_eq. by rewrite Nat.add_0_r.
  - destruct (last (filter (fun x => cache.Key x = k) kvs)) as [x|].
    + destruct IH as (i & Hi & IH). exists (S i). split; [simpl; lia|].
      by replace (ticks w + S i)%nat with (S (ticks w) + i)%nat by lia.
    + by rewrite IH, Hs, lookup_insert_ne.
Qed.

Lemma SetMulti_loop_AsMap {T} `{!GoZero T} kvs ttl (w : world T) k :
  match cache.AsMap kvs !! k with
  | Some v =>
      exists i, (i < length kvs)%nat /\
        storage (cache (snd (SetMulti_loop kvs ttl w))) !! k =
        Some (AnyWithTTL
                (mkWithTTL (clock w (ticks w + i)%nat)
                   (match ttl with Some _ => ttl | None => defaultTTL (cache w) end)
                   v))
  | None =>
      storage (cache (snd (SetMulti_loop kvs ttl w))) !! k = storage (cache w) !! k
  end.
Proof.
  unfold cache.AsMap. rewrite AsMap_fold_lookup, lookup_empty.
  pose proof (SetMulti_loop_lookup kvs ttl w k) as H.
  by destruct (last (filter (fun x => cache.Key x = k) kvs)).
Qed.

Lemma SetMulti_exported {T} `{!GoZero T} kvs (ttl : option Z) (w : world T) :
  match ttl with Some d => SetMultiWithTTL kvs d w | None => SetMulti kvs w end =
  (Ret None, snd (SetMulti_loop kvs ttl w)).
Proof.
  destruct (SetMulti_loop_frame kvs ttl w) as (Hr & _).
  destruct ttl as [d|]; unfold SetMultiWithTTL, SetMulti, mbind, M_bind, bind;
    destruct (SetMulti_loop kvs _ w) as [o w1]; simpl in Hr; by subst o.
Qed.

(** X19: [SetMulti] and [SetMultiWithTTL] never fail and write what [AsMap] of the
    pairs describes: a key of the pairs holds afterwards the value of its last
    pair, with the TTL of the call (the given one, or else the default) and
    an instant the clock showed during the call; every other key holds what
    it held before. *)
Theorem SetMulti_writes_AsMap {T} `{!GoZero T} kvs (ttl : option Z) (w : world T) k :
  let r := match ttl with
           | Some d => SetMultiWithTTL kvs d w
           | None => SetMulti kvs w
           end in
  fst r = Ret None /\
  match cache.AsMap kvs !! k with
  | Some v =>
      exists i, (i < length kvs)%nat /\
        storage (cache (snd r)) !! k =
        Some (AnyWithTTL
                (mkWithTTL (clock w (ticks w + i)%nat)
                   (match ttl with Some _ => ttl | None => defaultTTL (cache w) end)
                   v))
  | None => storage (cache (snd r)) !! k = storage (cache w) !! k
  end.
Proof.
  cbv zeta. rewrite SetMulti_exported. split; [done|]. apply SetMulti_loop_AsMap.
Qed.

(** X20: [WithTTL] replaces the default TTL and nothing else: the entries already
    stored keep the TTL they were written with, an entry set afterwards with
    no TTL of its own gets the new default, and an explicit TTL still takes
    precedence over it.  [NewCacheWithTTL d] is [NewCache] followed by
    [WithTTL d]. *)
Theorem WithTTL_affects_later_writes_only {T} `{!GoZero T} (w : world T) d key value ttl :
  fst (WithTTL d w) = Ret tt /\
  storage (cache (snd (WithTTL d w))) = storage (cache w) /\
  rwQueue (cache (snd (WithTTL d w))) = rwQueue (cache w) /\
  storage (cache (snd (Set_ key value (snd (WithTTL d w))))) !! key =
    Some (AnyWithTTL (mkWithTTL (clock w (ticks w)) (Some d) value)) /\
  storage (cache (snd (SetWithTTL key value ttl (snd (WithTTL d w))))) !! key =
    Some (AnyWithTTL (mkWithTTL (clock w (ticks w)) (Some ttl) value)) /\
  cache (snd (WithTTL d (new_world (T:=T) (clock w)))) = NewCacheWithTTL d.
Proof.
  repeat split; try done; simpl; apply lookup_insert_eq.
Qed.

Lemma GetMulti_loop_no_ttl {T} `{!GoZero T} (P : string -> T -> Prop)
    (keys : list string) res (w : world T) :
  Forall (fun k => exists e, storage (cache w) !! k = Some (AnyWithTTL e) /\
                             TTL e = None /\ P k (Value e)) keys ->
  exists items,
    GetMulti_loop keys res w = (Ret (res ++ items), w) /\
    Forall2 (fun item k => cache.Key item = k /\ P k (cache.Value item)) items keys.
Proof.
  revert res. induction keys as [|key keys IH]; intros res Hall.
  - exists []. by rewrite app_nil_r.
  - inversion Hall as [|? ? (e & Hk & Ht & HP) Hall']; subst.
    cbn [GetMulti_loop]. unfold mbind, M_bind, bind.
    rewrite (get_no_ttl w key e Hk Ht).
    destruct (IH (res ++ [cache.mkStorageItemMulti key (Value e)]) Hall')
      as (items & -> & HF).
    exists (cache.mkStorageItemMulti key (Value e) :: items).
    split; [by rewrite <- app_assoc|]. by constructor.
Qed.

(** X21: Round trip of the bulk methods on a cache with no default TTL: [SetMulti]
    of some pairs followed by [GetMulti] of their keys returns, with a nil
    error, one item per pair, in order, holding the key of the pair and the
    value [AsMap] of the pairs gives that key. *)
Theorem SetMulti_then_GetMulti {T} `{!GoZero T} kvs (w : world T) :
  defaultTTL (cache w) = None ->
  exists items,
    fst (GetMulti (cache.Key <$> kvs) (snd (SetMulti kvs w))) = Ret (items, None) /\
    Forall2 (fun item kv =>
               cache.Key item = cache.Key kv /\
               cache.AsMap kvs !! cache.Key kv = Some (cache.Value item)) items kvs.
Proof.
  intros Hd.
  assert (Hw : snd (SetMulti kvs w) = snd (SetMulti_loop kvs None w)).
  { unfold SetMulti, mbind, M_bind, bind.
    by destruct (SetMulti_loop kvs None w) as [[r|m|] w1]. }
  rewrite Hw. set (w' := snd (SetMulti_loop kvs None w)).
  assert (Hin : forall kv, kv ∈ kvs -> is_Some (cache.AsMap kvs !! cache.Key kv)).
  { intros kv Hkv. unfold cache.AsMap. rewrite AsMap_fold_lookup, lookup_empty.
    destruct (last (filter (fun x => cache.Key x = cache.Key kv) kvs)) eqn:Hl;
      [by eexists|].
    apply last_None in Hl.
    assert (kv ∈ filter (fun x => cache.Key x = cache.Key kv) kvs) as Hf
      by (by apply list_elem_of_filter).
    rewrite Hl in Hf. by apply elem_of_nil in Hf. }
  destruct (GetMulti_loop_no_ttl (fun k v => cache.AsMap kvs !! k = Some v)
              (cache.Key <$> kvs) [] w') as (items & Hloop & HF).
  { apply Forall_fmap, Forall_forall. intros kv Hkv. simpl.
    destruct (Hin kv Hkv) as [v Hv].
    pose proof (SetMulti_loop_AsMap kvs None w (cache.Key kv)) as H.
    rewrite Hv, Hd in H. destruct H as (i & _ & H).
    eexists. split; [exact H|]. done. }
  exists items. split.
  - unfold GetMulti, mbind, M_bind, bind. by rewrite Hloop.
  - by apply Forall2_fmap_r in HF.
Qed.

Lemma SetMulti_then_GetMulti_witness :
  exists items,
    fst (GetMulti (cache.Key <$> Examples.pairs)
           (snd (SetMulti Examples.pairs Examples.fresh))) = Ret (items, None) /\
    Forall2 (fun item kv =>
               cache.Key item = cache.Key kv /\
               cache.AsMap Examples.pairs !! cache.Key kv = Some (cache.Value item))
      items Examples.pairs.
Proof. apply (SetMulti_then_GetMulti Examples.pairs Examples.fresh). reflexivity. Defined.

(** ** Facts about concurrent callers, with any keys and fetchers *)

Lemma after_claim_well_formed {T} (w : world T) key :
  well_formed w -> well_formed (after_claim key w).
Proof.
  intros [Hty Hreg]. split; [exact Hty|]. intros k v. simpl.
  destruct (rwQueue (cache w) !! key) as [v0|] eqn:Hkey.
  - intros Hk. destruct (Hreg k v Hk) as (c0 & -> & Hc0).
    exists c0. split; [done|]. by apply lookup_app_l_Some.
  - destruct (decide (key = k)) as [->|Hne].
    + rewrite lookup_insert_eq. intros [= <-]. eexists. split; [done|].
      by apply list_lookup_middle.
    + rewrite lookup_insert_ne by done. intros Hk.
      destruct (Hreg k v Hk) as (c0 & -> & Hc0).
      exists c0. split; [done|]. by apply lookup_app_l_Some.
Qed.

Lemma get_well_formed {T} `{!GoZero T} (w : world T) key :
  well_formed w -> well_formed (snd (get key w)).
Proof.
  intros [Hty Hreg]. split.
  - apply (run_call_store_typed (CallGet key) w Hty).
  - apply (run_call_registry_closed (CallGet key) w Hreg).
Qed.

(** One step of one caller on a well-formed world. *)
Lemma step_goroutine_closed {T} `{!GoZero T} (g : goroutine T) (w : world T) :
  well_formed w ->
  pc_closed w (g_pc g) ->
  well_formed (snd (step_goroutine g w)) /\
  pc_closed (snd (step_goroutine g w)) (g_pc (fst (step_goroutine g w))) /\
  (forall c, chans w !! c = Some true ->
             chans (snd (step_goroutine g w)) !! c = Some true) /\
  (forall k v, rwQueue (cache w) !! k = Some v ->
               rwQueue (cache (snd (step_goroutine g w))) !! k = Some v) /\
  (steps_left (g_pc (fst (step_goroutine g w))) <= steps_left (g_pc g) - 1)%nat.
Proof.
  intros Hwf Hpc. destruct g as [k f p]. cbn [g_pc] in Hpc.
  unfold step_goroutine; cbn [g_key g_fetcher g_pc].
  destruct p as [|c|c|c|c r|r|r|msg]; cbn [pc_closed] in Hpc.
  - rewrite step_AtEntry. cbn [fst snd g_pc].
    split; [by apply after_claim_well_formed|]. split; [|split; [|split]].
    + destruct Hwf as [_ Hreg].
      destruct (rwQueue (cache w) !! k) as [[c|dyn]|] eqn:Hk; cbn [pc_closed].
      * destruct (Hreg _ _ Hk) as (c0 & [= <-] & Hc0). by apply after_claim_closed.
      * simpl. by apply list_lookup_middle.
      * simpl. by apply list_lookup_middle.
    + intros c. apply after_claim_closed.
    + intros k0 v Hk0. simpl.
      destruct (rwQueue (cache w) !! k) eqn:Hk; [done|].
      rewrite lookup_insert_ne; [done|]. intros <-. congruence.
    + destruct (rwQueue (cache w) !! k) as [[c|dyn]|]; simpl; lia.
  - cbn [step]. unfold mbind, M_bind, bind, mret, M_ret, ret, chan_recv.
    rewrite Hpc. cbn. repeat split; try done; try apply Hwf; try (simpl; lia).
  - cbn [step]. unfold mbind, M_bind, bind, mret, M_ret, ret.
    pose proof (get_well_formed w k Hwf) as Hwf'.
    pose proof (get_frame w k) as (Hq & _ & Hch & _).
    pose proof (get_cases w k) as Hc.
    destruct (get k w) as [o w1]. cbn [snd] in Hwf', Hq, Hch.
    inversion Hc; subst; cbn; rewrite ?Hch, ?Hq;
      (repeat split; try done); try apply Hwf'; try (simpl; lia).
  - cbn [step]. unfold mbind, M_bind, bind, mret, M_ret, ret, call. cbn.
    repeat split; try done; try apply Hwf; try (simpl; lia).
  - cbn [step]. unfold mbind, M_bind, bind. rewrite send_on_done by done. cbn.
    repeat split; try done; try apply Hwf; try (simpl; lia).
  - done.
  - cbn. repeat split; try done; try apply Hwf; lia.
  - cbn. repeat split; try done; try apply Hwf; lia.
Qed.

Lemma pc_closed_mono {T} (w w' : world T) (p : pc T) :
  (forall c, chans w !! c = Some true -> chans w' !! c = Some true) ->
  pc_closed w p -> pc_closed w' p.
Proof. intros Hmono. destruct p; simpl; auto. Qed.

Lemma sched_step_closed {T} `{!GoZero T} i (st : list (goroutine T) * world T) :
  pool_closed st ->
  pool_closed (sched_step i st) /\
  (forall k v, rwQueue (cache (snd st)) !! k = Some v ->
               rwQueue (cache (snd (sched_step i st))) !! k = Some v).
Proof.
  destruct st as [gs w]. intros [Hwf Hall]. unfold sched_step. cbn [fst snd] in *.
  destruct (gs !! i) as [g|] eqn:Hi; [|split; [by split|done]].
  pose proof (proj1 (Forall_lookup _ _) Hall i g Hi) as Hpc.
  destruct (step_goroutine_closed g w Hwf Hpc) as (Hwf' & Hpc' & Hmono & Hreg & _).
  destruct (step_goroutine g w) as [g' w']. cbn [fst snd] in *.
  split; [|done]. split; [done|]. cbn [fst snd].
  apply Forall_insert; [|done].
  eapply Forall_impl; [exact Hall|]. intros g0 Hp0. by eapply pc_closed_mono.
Qed.

Lemma run_schedule_closed {T} `{!GoZero T} schedule (st : list (goroutine T) * world T) :
  pool_closed st ->
  pool_closed (run_schedule schedule st) /\
  (forall k v, rwQueue (cache (snd st)) !! k = Some v ->
               rwQueue (cache (snd (run_schedule schedule st))) !! k = Some v).
Proof.
  revert st. induction schedule as [|i schedule IH]; intros st Hinv; [done|].
  destruct (sched_step_closed i st Hinv) as [Hinv' Hreg].
  destruct (IH _ Hinv') as [Hfin Hreg'].
  change (run_schedule (i :: schedule) st)
    with (run_schedule schedule (sched_step i st)).
  split; [done|]. intros k v Hk. by apply Hreg', Hreg.
Qed.

Lemma entry_pool_closed {T} (gs : list (goroutine T)) (w : world T) :
  well_formed w ->
  Forall (fun g => g_pc g = AtEntry) gs ->
  pool_closed (gs, w).
Proof.
  intros Hwf Hall. split; [done|]. cbn [fst snd].
  eapply Forall_impl; [exact Hall|]. by intros g ->.
Qed.

(** X22: Under every interleaving of callers of [GetOrFetch], with any keys and
    fetchers, on a well-formed cache: the cache stays well formed, no caller
    ever gets to the deferred [Delete], and the wait registry never loses or
    changes an entry. *)
Theorem no_interleaving_reaches_deferred_Delete {T} `{!GoZero T}
    (gs : list (goroutine T)) (w : world T) (schedule : list nat) :
  well_formed w ->
  Forall (fun g => g_pc g = AtEntry) gs ->
  well_formed (snd (run_schedule schedule (gs, w))) /\
  Forall (fun g => forall r, g_pc g <> AtDeferred r)
         (fst (run_schedule schedule (gs, w))) /\
  (forall k v, rwQueue (cache w) !! k = Some v ->
     rwQueue (cache (snd (run_schedule schedule (gs, w)))) !! k = Some v).
Proof.
  intros Hwf Hall.
  destruct (run_schedule_closed schedule (gs, w) (entry_pool_closed gs w Hwf Hall))
    as [[Hwf' Hpcs] Hreg].
  split; [done|]. split; [|done].
  eapply Forall_impl; [exact Hpcs|]. intros g Hpc r Hr.
  cbv beta in Hpc. by rewrite Hr in Hpc.
Qed.

Lemma run_schedule_steps_left {T} `{!GoZero T} schedule
    (st : list (goroutine T) * world T) i g :
  pool_closed st ->
  fst st !! i = Some g ->
  exists g', fst (run_schedule schedule st) !! i = Some g' /\
    (steps_left (g_pc g')
     <= steps_left (g_pc g) - length (filter (fun j => j = i) schedule))%nat.
Proof.
  revert st g. induction schedule as [|j schedule IH]; intros st g Hinv Hi.
  - exists g. split; [done|]. simpl. lia.
  - change (run_schedule (j :: schedule) st)
      with (run_schedule schedule (sched_step j st)).
    destruct (sched_step_closed j st Hinv) as [Hinv' _].
    assert (exists g1, fst (sched_step j st) !! i = Some g1 /\
      (steps_left (g_pc g1)
       <= steps_left (g_pc g) - (if decide (j = i) then 1 else 0))%nat)
      as (g1 & Hi1 & Hle).
    { destruct st as [gs w]. destruct Hinv as [Hwf Hall].
      unfold sched_step. cbn [fst snd] in *.
      destruct (gs !! j) as [gj|] eqn:Hj.
      - pose proof (proj1 (Forall_lookup _ _) Hall j gj Hj) as Hpc.
        destruct (step_goroutine_closed gj w Hwf Hpc) as (_ & _ & _ & _ & Hst).
        destruct (step_goroutine gj w) as [g' w']. cbn [fst snd] in *.
        destruct (decide (j = i)) as [->|Hne].
        + exists g'. split.
          * apply list_lookup_insert_eq. by eapply lookup_lt_Some.
          * rewrite Hi in Hj. by injection Hj as <-.
        + exists g. split; [by rewrite list_lookup_insert_ne|lia].
      - exists g. split; [done|].
        destruct (decide (j = i)) as [->|Hne]; [congruence|lia]. }
    destruct (IH _ g1 Hinv' Hi1) as (g' & Hg' & Hle').
    exists g'. split; [done|]. rewrite filter_cons.
    destruct (decide (j = i)); simpl; lia.
Qed.

(** X23: No caller of [GetOrFetch] ever waits for another one.  Under every
    interleaving of callers, with any keys and fetchers, on a well-formed
    cache, a caller that has been scheduled four times has returned or has
    panicked, whatever the other callers have done. *)
Theorem caller_finishes_within_four_steps {T} `{!GoZero T}
    (gs : list (goroutine T)) (w : world T) (schedule : list nat) i g :
  well_formed w ->
  Forall (fun g => g_pc g = AtEntry) gs ->
  gs !! i = Some g ->
  (4 <= length (filter (fun j => j = i) schedule))%nat ->
  exists g', fst (run_schedule schedule (gs, w)) !! i = Some g' /\
    ((exists r, g_pc g' = Returned r) \/ (exists msg, g_pc g' = Panicked msg)).
Proof.
  intros Hwf Hall Hi Hcount.
  destruct (run_schedule_steps_left schedule (gs, w) i g
              (entry_pool_closed gs w Hwf Hall) Hi) as (g' & Hg' & Hle).
  exists g'. split; [done|].
  pose proof (proj1 (Forall_lookup _ _) Hall i g Hi) as Hentry.
  cbv beta in Hentry. rewrite Hentry in Hle. simpl in Hle.
  destruct (g_pc g'); simpl in Hle; try lia; eauto.
Qed.

Lemma caller_finishes_within_four_steps_witness :
  exists g', fst (run_schedule [0; 1; 0; 0; 0]%nat
                    (callers 2 "user:1" Examples.fetch42, Examples.fresh)) !! 0%nat
             = Some g' /\
    ((exists r, g_pc g' = Returned r) \/ (exists msg, g_pc g' = Panicked msg)).
Proof.
  apply (caller_finishes_within_four_steps
           (callers 2 "user:1" Examples.fetch42) Examples.fresh
           [0; 1; 0; 0; 0]%nat 0 (mkGoroutine "user:1" Examples.fetch42 AtEntry)).
  - split; intros k v; simpl; by rewrite lookup_empty.
  - by repeat constructor.
  - reflexivity.
  - vm_compute. lia.
Defined.

Lemma no_interleaving_reaches_deferred_Delete_witness :
  well_formed (snd (run_schedule [0; 1; 1; 0; 0; 0]%nat
                 (callers 2 "user:1" Examples.fetch42, Examples.pinned_claimed))) /\
  Forall (fun g => forall r, g_pc g <> AtDeferred r)
         (fst (run_schedule [0; 1; 1; 0; 0; 0]%nat
                 (callers 2 "user:1" Examples.fetch42, Examples.pinned_claimed))) /\
  (forall k v, rwQueue (cache Examples.pinned_claimed) !! k = Some v ->
     rwQueue (cache (snd (run_schedule [0; 1; 1; 0; 0; 0]%nat
                 (callers 2 "user:1" Examples.fetch42, Examples.pinned_claimed))))
       !! k = Some v).
Proof.
  apply (no_interleaving_reaches_deferred_Delete
           (callers 2 "user:1" Examples.fetch42) Examples.pinned_claimed
           [0; 1; 1; 0; 0; 0]%nat).
  - apply (run_calls_well_formed
             [CallSet "user:1" 7; CallGetOrFetch "user:1" Examples.fetch42]
             Examples.fresh).
    split; intros k v; simpl; by rewrite lookup_empty.
  - by repeat constructor.
Defined.

(** ** Facts about the store keys of package redis *)

Lemma length_append (s1 s2 : string) :
  String.length (String.append s1 s2) = (String.length s1 + String.length s2)%nat.
Proof.
  induction s1 as [|a s1 IH]; [done|].
  change (S (String.length (String.append s1 s2)) =
          S (String.length s1 + String.length s2)).
  by rewrite IH.
Qed.

Lemma append_assoc (s1 s2 s3 : string) :
  String.append (String.append s1 s2) s3 = String.append s1 (String.append s2 s3).
Proof.
  induction s1 as [|a s1 IH]; [done|].
  change (String a (String.append (String.append s1 s2) s3) =
          String a (String.append s1 (String.append s2 s3))).
  by rewrite IH.
Qed.

(** X24: Within one cache, distinct cache keys have distinct store keys. *)
Theorem formatKey_injective_in_key (baseKey key1 key2 : string) :
  redis.formatKey baseKey key1 = redis.formatKey baseKey key2 -> key1 = key2.
Proof.
  unfold redis.formatKey. intros H.
  apply (inj (String.append baseKey)) in H. by injection H.
Qed.

Lemma formatKey_injective_in_key_witness : "user:1" = "user:1".
Proof.
  apply (formatKey_injective_in_key "app" "user:1" "user:1"). reflexivity.
Defined.

(** X25: [delete] never names the store key of the entry: the key it hands to the
    store differs from the key that [set] and [get] hand to the store for the
    same cache key, whatever the base key. *)
Theorem redis_delete_names_another_key (baseKey key : string) :
  redis.delete_key baseKey key <> redis.set_item_Key baseKey key /\
  redis.delete_key baseKey key <> redis.get_item_Key baseKey key.
Proof.
  assert (H : key <> redis.formatKey baseKey key).
  { intros H. apply (f_equal String.length) in H.
    unfold redis.formatKey in H. rewrite !length_append in H. simpl in H. lia. }
  by split.
Qed.

(** X26: Caches whose base keys contain a colon can share store keys: the store
    key of [key2] under the base key [baseKey:key1] is the store key of
    [key1:key2] under the base key [baseKey]. *)
Theorem formatKey_namespaces_overlap (baseKey key1 key2 : string) :
  redis.formatKey (redis.formatKey baseKey key1) key2 =
  redis.formatKey baseKey (redis.formatKey key1 key2).
Proof. unfold redis.formatKey. by rewrite !append_assoc. Qed.
